(** * DreamTime: the nudify registry, the photo controller and the settings upgrade

    A shallow embedding of [modules/nudify/nudify.js], [modules/nudify/photo.js]
    and of the [_upgrade] method of the settings service.  Objects that the
    JavaScript code shares by reference (the preferences objects, the [Photo]
    instances) live in explicit stores; every method is a function on the
    state of the application. *)

From Stdlib Require Import ZArith Lia Sorted.
From stdpp Require Import base option list strings pretty.

Local Open Scope string_scope.
Local Open Scope list_scope.
Local Open Scope nat_scope.

(** ** Plain JavaScript objects *)

Module Js.

Abbreviation loc := nat.

(** Primitive values and references to objects. *)
Inductive value :=
| VUndef
| VNull
| VBool (b : bool)
| VNum (n : Z)
| VStr (s : string)
| VRef (l : loc).

#[global] Instance value_eq_dec : EqDecision value.
Proof. solve_decision. Defined.

(** An object is the list of its own properties, in insertion order. *)
Abbreviation object := (list (string * value)).

(** The store of plain objects; a reference is an index into it. *)
Abbreviation heap := (list object).

Fixpoint get_own (o : object) (k : string) : value :=
  match o with
  | [] => VUndef
  | (k', v) :: o' => if decide (k = k') then v else get_own o' k
  end.

Fixpoint set_own (o : object) (k : string) (v : value) : object :=
  match o with
  | [] => [(k, v)]
  | (k', v') :: o' =>
      if decide (k = k') then (k, v) :: o' else (k', v') :: set_own o' k v
  end.

Definition alloc (h : heap) (o : object) : heap * value :=
  (h ++ [o], VRef (length h)).

(** [x.k]: [None] stands for the TypeError raised when [x] is [undefined]
    or [null]. *)
Definition get (h : heap) (x : value) (k : string) : option value :=
  match x with
  | VRef l => o ← h !! l; Some (get_own o k)
  | VUndef | VNull => None
  | VBool _ | VNum _ | VStr _ => Some VUndef
  end.

(** [x.k = v]: the object [x] refers to is updated in place, so every
    holder of the same reference sees the new property.  [None] is the
    TypeError of strict code when [x] is not an object. *)
Definition set (h : heap) (x : value) (k : string) (v : value) : option heap :=
  match x with
  | VRef l => o ← h !! l; Some (<[l := set_own o k v]> h)
  | _ => None
  end.

(** [x.k1.k2...] *)
Fixpoint get_path (h : heap) (x : value) (ks : list string) : option value :=
  match ks with
  | [] => Some x
  | k :: ks' => y ← get h x k; get_path h y ks'
  end.

(** [x.k1.k2...kn = v] *)
Fixpoint set_path (h : heap) (x : value) (ks : list string) (v : value)
  : option heap :=
  match ks with
  | [] => None
  | [k] => set h x k v
  | k :: ks' => y ← get h x k; set_path h y ks' v
  end.

(** lodash [clone]: a new object with the same own properties.  The copy
    is shallow: a property that holds a reference still refers to the
    object the original refers to. *)
Definition clone (h : heap) (x : value) : heap * value :=
  match x with
  | VRef l =>
      match h !! l with
      | Some o => alloc h o
      | None => (h, x)
      end
  | _ => (h, x)
  end.

End Js.

(** ** Data model *)

Abbreviation loc := nat.

(** Errors as JavaScript throws them: a bare string (better-queue fails a
    cancelled task with the string ['cancelled']) or an error object. *)
Inductive JsError :=
| ErrString (s : string)
| ErrObject (message : string).

#[global] Instance JsError_eq_dec : EqDecision JsError.
Proof. solve_decision. Defined.

(** Modelled from the spec: the [File] class of [modules/file] is missing;
    section 6 gives its contract (existence check, MIME type, on-disk path
    and a content hash used as Item identity). *)
Record File := {
  file_exists : bool;
  mimetype : string;
  path : string;
  fullname : string;
  md5 : string;
}.

(** Modelled from the spec: the [Timer] class of [modules/timer] is missing;
    a duration timer, of which [new Timer()], [start()] and [stop()] are
    used. *)
Inductive Timer := TimerNew | TimerStarted | TimerStopped.

#[global] Instance Timer_eq_dec : EqDecision Timer.
Proof. solve_decision. Defined.

(** Modelled from the spec: the [PhotoRun] class of [modules/nudify/photo-run]
    is missing.  Section 3: identity is the 1-based sequence index within
    the owning Item, and the status mirrors the scheduler lifecycle (queued,
    started, finished, failed). *)
Inductive RunStatus := RunQueued | RunStarted | RunFinished | RunFailed.

#[global] Instance RunStatus_eq_dec : EqDecision RunStatus.
Proof. solve_decision. Defined.

Record PhotoRun := {
  run_id : Z;
  run_status : RunStatus;
}.

#[global] Instance PhotoRun_eq_dec : EqDecision PhotoRun.
Proof. solve_decision. Defined.

Definition PhotoRun_new (it : Z) : PhotoRun :=
  {| run_id := it; run_status := RunQueued |}.

Definition PhotoRun_reset (r : PhotoRun) : PhotoRun :=
  {| run_id := run_id r; run_status := RunQueued |}.

Definition PhotoRun_onStart (r : PhotoRun) : PhotoRun :=
  {| run_id := run_id r; run_status := RunStarted |}.

Definition PhotoRun_onFinish (r : PhotoRun) : PhotoRun :=
  {| run_id := run_id r; run_status := RunFinished |}.

Definition PhotoRun_onFail (r : PhotoRun) : PhotoRun :=
  {| run_id := run_id r; run_status := RunFailed |}.

(** The options handed to [new Queue(fn, options)]. *)
Record QueueOptions := {
  maxTimeout : Z;
  afterProcessDelay : Z;
  batchSize : Z;
  concurrent : nat;
}.

(** The state of a photo's own queue (a better-queue over a memory store):
    the ids of the runs that wait, oldest first, the ids of the runs a
    worker is processing, and whether a 'drain' is still to be announced. *)
Record Queue := {
  q_options : QueueOptions;
  q_tasks : list Z;
  q_workers : list Z;
  q_active : bool;         (* work was dispatched since the last 'drain' *)
}.

Record Photo := {
  id : string;
  file : File;
  status : string;
  queue : Queue;
  runs : list PhotoRun;
  preferences : Js.value;
  timer : Timer;
  cropper : bool;          (* [false]: [this.cropper] is nil *)
  suspended : nat;         (* callers of [start()] that await 'finish' *)
}.

(** The part of [settings] that the registry and the photos read. *)
Record Settings := {
  uploadMode : string;           (* settings.app.uploadMode *)
  device : string;               (* settings.processing.device *)
  allRuns : bool;                (* settings.notifications.allRuns *)
  settings_preferences : Js.value;   (* settings.preferences *)
}.

(** The global queue of [Nudify]: the photos that wait, oldest first, and
    the photo whose [start()] is in progress. *)
Record GlobalQueue := {
  g_options : QueueOptions;
  g_tasks : list loc;
  g_worker : option loc;
}.

(** What the environment answers. *)
Record Env := {
  activeWindow : option bool;    (* [Some focused], or no window at all *)
  writeDataURL_ok : bool;        (* whether writing the cropped file works *)
}.

(** What an observer of the application sees, in order. *)
Inductive Event :=
| Update                                  (* Nudify.emitUpdate() was called *)
| Emit (l : loc) (name : string)          (* photo.events.emit(name) *)
| Notification (title body : string)      (* new Notification(title, {body}) *)
| Handle (e : JsError)                    (* AppError.handle(e) *)
| RouterPush (url : string)               (* window.$router.push(url) *)
| RunStart (l : loc) (rid : Z)            (* a worker calls run.start() *)
| RunCancel (l : loc) (rid : Z)           (* a worker calls run.cancel() *)
| Uncaught (what : string).               (* an exception inside a listener *)

#[global] Instance Event_eq_dec : EqDecision Event.
Proof. solve_decision. Defined.

Record World := {
  heap : Js.heap;            (* the plain objects *)
  settings : Settings;
  store : list Photo;        (* the Photo instances; a reference is an index *)
  photos : list loc;         (* Nudify.photos *)
  gqueue : GlobalQueue;      (* Nudify.queue *)
  env : Env;
  log : list Event;
}.

(** ** Updating the records *)

Definition with_heap (h : Js.heap) (w : World) : World :=
  {| heap := h; settings := settings w; store := store w; photos := photos w;
     gqueue := gqueue w; env := env w; log := log w |}.

Definition with_store (s : list Photo) (w : World) : World :=
  {| heap := heap w; settings := settings w; store := s; photos := photos w;
     gqueue := gqueue w; env := env w; log := log w |}.

Definition with_photos (ps : list loc) (w : World) : World :=
  {| heap := heap w; settings := settings w; store := store w; photos := ps;
     gqueue := gqueue w; env := env w; log := log w |}.

Definition with_gqueue (g : GlobalQueue) (w : World) : World :=
  {| heap := heap w; settings := settings w; store := store w;
     photos := photos w; gqueue := g; env := env w; log := log w |}.

Definition with_settings (s : Settings) (w : World) : World :=
  {| heap := heap w; settings := s; store := store w; photos := photos w;
     gqueue := gqueue w; env := env w; log := log w |}.

Definition emit (e : Event) (w : World) : World :=
  {| heap := heap w; settings := settings w; store := store w;
     photos := photos w; gqueue := gqueue w; env := env w;
     log := log w ++ [e] |}.

Definition with_status (s : string) (p : Photo) : Photo :=
  {| id := id p; file := file p; status := s; queue := queue p;
     runs := runs p; preferences := preferences p; timer := timer p;
     cropper := cropper p; suspended := suspended p |}.

Definition with_queue (q : Queue) (p : Photo) : Photo :=
  {| id := id p; file := file p; status := status p; queue := q;
     runs := runs p; preferences := preferences p; timer := timer p;
     cropper := cropper p; suspended := suspended p |}.

Definition with_runs (rs : list PhotoRun) (p : Photo) : Photo :=
  {| id := id p; file := file p; status := status p; queue := queue p;
     runs := rs; preferences := preferences p; timer := timer p;
     cropper := cropper p; suspended := suspended p |}.

Definition with_timer (t : Timer) (p : Photo) : Photo :=
  {| id := id p; file := file p; status := status p; queue := queue p;
     runs := runs p; preferences := preferences p; timer := t;
     cropper := cropper p; suspended := suspended p |}.

Definition with_suspended (n : nat) (p : Photo) : Photo :=
  {| id := id p; file := file p; status := status p; queue := queue p;
     runs := runs p; preferences := preferences p; timer := timer p;
     cropper := cropper p; suspended := n |}.

Definition with_tasks (ts : list Z) (q : Queue) : Queue :=
  {| q_options := q_options q; q_tasks := ts; q_workers := q_workers q;
     q_active := q_active q |}.

Definition with_workers (ws : list Z) (q : Queue) : Queue :=
  {| q_options := q_options q; q_tasks := q_tasks q; q_workers := ws;
     q_active := q_active q |}.

Definition with_active (b : bool) (q : Queue) : Queue :=
  {| q_options := q_options q; q_tasks := q_tasks q;
     q_workers := q_workers q; q_active := b |}.

Definition on_queue (f : Queue → Queue) (p : Photo) : Photo :=
  with_queue (f (queue p)) p.

(** Mutation of the photo object behind the reference [l]. *)
Definition on_photo (l : loc) (f : Photo → Photo) (w : World) : World :=
  with_store (alter f l (store w)) w.

(** [getRunById(id)], that is [this.runs[id - 1]]; [None] is [undefined]. *)
Definition getRunById (p : Photo) (rid : Z) : option PhotoRun :=
  if (1 <=? rid)%Z then runs p !! Z.to_nat (rid - 1) else None.

(** Mutation of the run that [getRunById(rid)] returns. *)
Definition on_run (rid : Z) (f : PhotoRun → PhotoRun) (p : Photo) : Photo :=
  if (1 <=? rid)%Z then with_runs (alter f (Z.to_nat (rid - 1)) (runs p)) p
  else p.

(** ** The coalesced update and the status setter *)

(** [Nudify.emitUpdate()]: a call of the debounced function; which calls
    reach the listeners of ['nudify.update'] is the matter of [Debounce]. *)
Definition Nudify_emitUpdate (w : World) : World := emit Update w.

(** [set status(value)] *)
Definition Photo_set_status (l : loc) (value : string) (w : World) : World :=
  Nudify_emitUpdate (on_photo l (with_status value) w).

(** ** Photo: validation, queue set-up and life-cycle hooks *)

Definition dquote : string :=
  String (Ascii.Ascii false true false false false true false false) "".

(** [_validate()]: [Some e] when it throws [e]. *)
Definition Photo__validate (f : File) : option JsError :=
  if negb (file_exists f) then
    Some (ErrObject ("The file " +:+ dquote +:+ path f +:+ dquote
                     +:+ " does not exists."))
  else if negb (bool_decide (mimetype f = "image/jpeg"))
          && negb (bool_decide (mimetype f = "image/png"))
          && negb (bool_decide (mimetype f = "image/gif")) then
    Some (ErrObject ("The file " +:+ dquote +:+ path f +:+ dquote
                     +:+ " is not a valid photo. Only jpeg, png or gif."))
  else None.

(** [_setupQueue()]: the options of the photo's own queue.  Its four
    listeners are [Photo_on_drain], [Photo_on_task_started],
    [Photo_on_task_finish] and [Photo_on_task_failed] below. *)
Definition Photo__setupQueue (s : Settings) : Queue :=
  {| q_options :=
       {| maxTimeout := if decide (device s = "GPU")
                        then (2 * 60 * 1000)%Z else (10 * 60 * 1000)%Z;
          afterProcessDelay := 500;
          batchSize := 1;
          concurrent := 1 |};
     q_tasks := [];
     q_workers := [];
     q_active := false |}.

(** [_sendNotification()] *)
Definition Photo__sendNotification (l : loc) (w : World) : World :=
  match store w !! l with
  | None => w
  | Some p =>
      match activeWindow (env w) with
      | Some true => w
      | _ =>
          if negb (allRuns (settings w)) then w
          else emit (Notification
                       ("📷 " +:+ fullname (file p) +:+ " has finished.")
                       "The photo has completed the transformation process.") w
      end
  end.

(** [this.events.emit('finish')]: every caller of [start()] that awaits the
    event goes on; when the caller is [Nudify._run], its [cb()] ends the
    task the global queue is processing. *)
Definition Photo_emit_finish (l : loc) (w : World) : World :=
  let w1 := emit (Emit l "finish") w in
  match store w1 !! l with
  | None => w1
  | Some p =>
      if decide (suspended p = 0) then w1
      else
        let w2 := on_photo l (with_suspended 0) w1 in
        let g := gqueue w2 in
        if decide (g_worker g = Some l) then
          with_gqueue {| g_options := g_options g; g_tasks := g_tasks g;
                         g_worker := None |} w2
        else w2
  end.

(** [_onStart()] *)
Definition Photo__onStart (l : loc) (w : World) : World :=
  let w1 := Photo_set_status l "running" w in
  let w2 := on_photo l (with_timer TimerStarted) w1 in
  emit (Emit l "start") w2.

(** [_onFinish(status = 'finished')] *)
Definition Photo__onFinish (l : loc) (status : string) (w : World) : World :=
  let w1 := Photo_set_status l status w in
  let w2 := on_photo l (with_timer TimerStopped) w1 in
  let w3 := Photo_emit_finish l w2 in
  Photo__sendNotification l w3.

(** [reset()] *)
Definition Photo_reset (l : loc) (w : World) : World :=
  let w1 := Photo_set_status l "pending" w in
  let w2 := on_photo l (with_timer TimerNew) w1 in
  on_photo l (with_runs []) w2.

(** The listeners that [_setupQueue] registers on the photo's queue. *)

Definition Photo_on_drain (l : loc) (w : World) : World :=
  Photo__onFinish l "finished" w.

(** ['task_started']: [run.onStart()] on the run the queue dispatches, which
    is the entry of [this.runs] with that id. *)
Definition Photo_on_task_started (l : loc) (runId : Z) (w : World) : World :=
  on_photo l (on_run runId PhotoRun_onStart) w.

(** ['task_finish']: [getRunById(runId).onFinish()]; when no run has that
    id the call on [undefined] throws inside the listener. *)
Definition Photo_on_task_finish (l : loc) (runId : Z) (w : World) : World :=
  match p ← store w !! l; getRunById p runId with
  | None => emit (Uncaught "TypeError") w
  | Some _ => on_photo l (on_run runId PhotoRun_onFinish) w
  end.

(** ['task_failed'] *)
Definition Photo_on_task_failed (l : loc) (runId : Z) (error : JsError)
    (w : World) : World :=
  match p ← store w !! l; getRunById p runId with
  | None => emit (Uncaught "TypeError") w
  | Some _ =>
      let w1 := on_photo l (on_run runId PhotoRun_onFail) w in
      if decide (error ≠ ErrString "cancelled") then emit (Handle error) w1
      else w1
  end.

(** ** The photo's queue at work

    The queue library (better-queue) is not part of the repository.  What
    follows is its documented behaviour for the options the code passes:
    tasks are kept by id, first in first out; at most [concurrent] tasks
    are processed at a time; a task that fails does not stop the queue;
    ['drain'] is announced once the queue has nothing left to do. *)

(** [queue.push(task)]: a task whose id already waits is replaced in place. *)
Definition Queue_push (rid : Z) (q : Queue) : Queue :=
  if decide (rid ∈ q_tasks q) then q else with_tasks (q_tasks q ++ [rid]) q.

(** What a run comes to: [run.start()] resolves, or is rejected with a
    reason (the cancellation sentinel and the time-out of the queue
    included). *)
Inductive Outcome :=
| Resolved
| Rejected (e : JsError).

(** [if (err)]: the queue tests the reason its callback receives.  An error
    object and a string with a character in it are truthy, the empty string
    is not. *)
Definition is_truthy (e : JsError) : bool :=
  match e with
  | ErrString EmptyString => false
  | ErrString (String _ _) => true
  | ErrObject _ => true
  end.

(** What the queue of a photo does next. *)
Inductive Choice :=
| Dispatch                              (* hand the oldest task to a worker *)
| Complete (rid : Z) (o : Outcome)      (* the worker of [rid] calls back *)
| Drain.                                (* announce 'drain' *)

Definition remove_id (rid : Z) (ids : list Z) : list Z :=
  filter (λ x, x ≠ rid) ids.

(** One step of the queue of photo [l]; [None] when the queue cannot take
    that step.  [_run(run, cb)] is what a worker executes on dispatch: it
    calls [cb()] when [run.start()] resolves and [cb(error)] when it is
    rejected, and the queue fails the task when [cb] gets a truthy reason
    and finishes it otherwise. *)
Definition queue_step (l : loc) (c : Choice) (w : World) : option World :=
  p ← store w !! l;
  let q := queue p in
  match c with
  | Dispatch =>
      match q_tasks q with
      | [] => None
      | rid :: ts =>
          if decide (length (q_workers q) < concurrent (q_options q)) then
            let w1 := on_photo l
                        (on_queue (λ q', {| q_options := q_options q';
                                            q_tasks := ts;
                                            q_workers := q_workers q' ++ [rid];
                                            q_active := true |})) w in
            let w2 := Photo_on_task_started l rid w1 in
            Some (emit (RunStart l rid) w2)
          else None
      end
  | Complete rid o =>
      if decide (rid ∈ q_workers q) then
        let w1 := on_photo l
                    (on_queue (λ q', with_workers
                                       (remove_id rid (q_workers q')) q'))
                    w in
        Some (match o with
              | Resolved => Photo_on_task_finish l rid w1
              | Rejected e =>
                  if is_truthy e then Photo_on_task_failed l rid e w1
                  else Photo_on_task_finish l rid w1
              end)
      else None
  | Drain =>
      if q_active q && bool_decide (q_tasks q = [])
         && bool_decide (q_workers q = []) then
        Some (Photo_on_drain l (on_photo l (on_queue (with_active false)) w))
      else None
  end.

(** A schedule is a sequence of steps. *)
Fixpoint queue_exec (l : loc) (cs : list Choice) (w : World) : option World :=
  match cs with
  | [] => Some w
  | c :: cs' => w' ← queue_step l c w; queue_exec l cs' w'
  end.

(** [cancelRun(run)], that is [this.queue.cancel(run.id)]: a run that is
    being processed is cancelled through the handle [_run] returned, and its
    task fails with ['cancelled']; a run that waits is dropped. *)
Definition Photo_cancelRun (l : loc) (rid : Z) (w : World) : World :=
  match store w !! l with
  | None => w
  | Some p =>
      let q := queue p in
      let w1 :=
        if decide (rid ∈ q_workers q) then
          let w' := on_photo l
                      (on_queue (λ q', with_workers
                                         (remove_id rid (q_workers q')) q'))
                      w in
          Photo_on_task_failed l rid (ErrString "cancelled")
            (emit (RunCancel l rid) w')
        else w in
      on_photo l (on_queue (λ q', with_tasks (remove_id rid (q_tasks q')) q'))
               w1
  end.

(** [cancel(status = 'finished')] *)
Definition Photo_cancel (l : loc) (status : string) (w : World) : World :=
  let rs := default [] (runs <$> store w !! l) in
  let w1 := foldl (λ w' run, Photo_cancelRun l (run_id run) w') w rs in
  Photo__onFinish l status w1.

(** [rerun(run)] *)
Definition Photo_rerun (l : loc) (rid : Z) (w : World) : World :=
  let w1 := on_photo l (on_run rid PhotoRun_reset) w in
  let w2 := on_photo l (on_queue (Queue_push rid)) w1 in
  Photo__onStart l w2.

(** ** Nudify: the global queue *)

Definition MAX_PHOTOS : nat := 1000.

(** [setup()]: the options of the global queue; its ['task_queued']
    listener is part of [Nudify_addToQueue]. *)
Definition Nudify_setup : GlobalQueue :=
  {| g_options := {| maxTimeout := (60 * 60 * 1000)%Z;
                     afterProcessDelay := 500;
                     batchSize := 1;
                     concurrent := 1 |};
     g_tasks := [];
     g_worker := None |}.

Definition photo_id (w : World) (l : loc) : option string :=
  id <$> store w !! l.

(** [addToQueue(photo)]: [this.queue.push(photo)], where the id of the task
    is [photo.id], followed by the ['task_queued'] listener. *)
Definition Nudify_addToQueue (l : loc) (w : World) : World :=
  let g := gqueue w in
  let ts :=
    if decide (photo_id w l ∈ photo_id w <$> g_tasks g) then
      (λ t, if decide (photo_id w t = photo_id w l) then l else t) <$> g_tasks g
    else g_tasks g ++ [l] in
  let w1 := with_gqueue {| g_options := g_options g; g_tasks := ts;
                           g_worker := g_worker g |} w in
  Photo_set_status l "waiting" w1.

(** [removeFromQueue(photo)]: [this.queue.cancel(photo.id, cb)].  When the
    task is being processed the handle that [_run] returned is called, which
    is [photo.cancel('pending')]; the task is deleted from the store; then
    [cb] runs, which is [photo.cancel('pending')] again. *)
Definition Nudify_removeFromQueue (l : loc) (w : World) : World :=
  let g := gqueue w in
  let w1 :=
    match g_worker g with
    | Some t =>
        if decide (photo_id w t = photo_id w l) then
          let w' := Photo_cancel t "pending" w in
          with_gqueue {| g_options := g_options (gqueue w');
                         g_tasks := g_tasks (gqueue w');
                         g_worker := None |} w'
        else w
    | None => w
    end in
  let g1 := gqueue w1 in
  let w2 :=
    with_gqueue {| g_options := g_options g1;
                   g_tasks := filter (λ t, photo_id w t ≠ photo_id w l)
                                     (g_tasks g1);
                   g_worker := g_worker g1 |} w1 in
  Photo_cancel l "pending" w2.

(** ** Photo: construction and [start()] *)

(** [new Photo(file)]: the statements of the constructor in their order.
    The clone of the preferences is made before [_validate()] may throw; the
    new instance gets its reference once the constructor returns.  (The
    cropped file, the event bus and the logger carry no state of their own
    here.) *)
Definition Photo_new (f : File) (w : World) : World * (JsError + loc) :=
  let '(h, prefs) := Js.clone (heap w) (settings_preferences (settings w)) in
  let w1 := with_heap h w in
  match Photo__validate f with
  | Some e => (w1, inl e)
  | None =>
      let p := {| id := md5 f; file := f; status := "pending";
                  queue := Photo__setupQueue (settings w1); runs := [];
                  preferences := prefs; timer := TimerNew; cropper := false;
                  suspended := 0 |} in
      (with_store (store w1 ++ [p]) w1, inr (length (store w1)))
  end.

(** How a call of an [async] method stands when it gives control back. *)
Inductive Completion :=
| Returned                 (* the promise is fulfilled *)
| Threw (e : JsError)      (* the promise is rejected *)
| Suspended                (* the method awaits the 'finish' event *)
| OutOfModel.              (* a value whose coercion is not modelled *)

(** [crop()]: [Some e] when it throws [e]. *)
Definition Photo_crop (l : loc) (w : World) : option JsError :=
  match store w !! l with
  | None => Some (ErrObject "TypeError")
  | Some p =>
      if negb (cropper p) then
        Some (ErrObject "This photo has the manual crop selected, you must open the Crop at least once to continue.")
      else if writeDataURL_ok (env w) then None
      else Some (ErrObject "writeDataURL")
  end.

(** The number that [it <= executions] compares [it] with; [undefined]
    compares as NaN, which no [it] is below, like 0.  Strings and objects
    are not coerced here. *)
Definition loop_bound (executions : Js.value) : option Z :=
  match executions with
  | Js.VNum n => Some n
  | Js.VUndef | Js.VNull => Some 0%Z
  | Js.VBool b => Some (if b then 1 else 0)%Z
  | Js.VStr _ | Js.VRef _ => None
  end.

(** [for (let it = 1; it <= executions; it += 1) { ... }], with the number
    of iterations left as the structural argument. *)
Fixpoint start_loop (left : nat) (it : Z) (l : loc) (w : World) : World :=
  match left with
  | 0 => w
  | S left' =>
      let run := PhotoRun_new it in
      let w1 := on_photo l (λ p, with_runs (runs p ++ [run]) p) w in
      let w2 := on_photo l (on_queue (Queue_push it)) w1 in
      start_loop left' (it + 1) l w2
  end.

(** [start()], up to the point where it returns, throws or awaits. *)
Definition Photo_start (l : loc) (w : World) : World * Completion :=
  match store w !! l with
  | None => (w, OutOfModel)
  | Some p =>
      match Js.get_path (heap w) (preferences p) ["body"; "executions"],
            Js.get_path (heap w) (preferences p) ["advanced"; "scaleMode"] with
      | Some executions, Some scaleMode =>
          if decide (executions = Js.VNum 0) then (w, Returned)
          else
            match loop_bound executions with
            | None => (w, OutOfModel)
            | Some n =>
                match (if decide (scaleMode = Js.VStr "cropjs")
                       then Photo_crop l w else None) with
                | Some err => (Nudify_removeFromQueue l w, Threw err)
                | None =>
                    let w1 := Photo_reset l w in
                    let w2 := Photo__onStart l w1 in
                    let w3 := start_loop (Z.to_nat n) 1 l w2 in
                    (on_photo l (λ p', with_suspended (S (suspended p')) p') w3,
                     Suspended)
                end
            end
      | _, _ => (w, Threw (ErrObject "TypeError"))
      end
  end.

(** ** Nudify: the registry *)

(** [_run(photo, cb)]: the global queue hands the oldest waiting photo to
    its worker, which calls [photo.start()]; [cb] ends the task as soon as
    the promise is settled. *)
Definition Nudify__run (w : World) : option (World * Completion) :=
  let g := gqueue w in
  match g_worker g, g_tasks g with
  | None, l :: ts =>
      let w1 := with_gqueue {| g_options := g_options g; g_tasks := ts;
                               g_worker := Some l |} w in
      let '(w2, c) := Photo_start l w1 in
      match c with
      | Suspended => Some (w2, c)
      | _ => Some (with_gqueue {| g_options := g_options (gqueue w2);
                                  g_tasks := g_tasks (gqueue w2);
                                  g_worker := None |} w2, c)
      end
  | _, _ => None
  end.

(** [getPhoto(id)] and the lookup at the head of [add]:
    [find(this.photos, ['id', id])]. *)
Definition Nudify_getPhoto (i : string) (w : World) : option loc :=
  snd <$> list_find (λ l, photo_id w l = Some i) (photos w).

(** [remove(photo)] *)
Definition Nudify_remove (l : loc) (w : World) : World :=
  let w1 := Photo_cancel l "finished" w in
  let w2 := with_photos
              (filter (λ t, photo_id w1 t ≠ photo_id w1 l) (photos w1)) w1 in
  Nudify_emitUpdate w2.

(** [add(file)]: the second component is the exception, if one is thrown. *)
Definition Nudify_add (f : File) (w : World) : World * option JsError :=
  match Photo_new f w with
  | (w1, inl e) => (w1, Some e)
  | (w1, inr l) =>
      match Nudify_getPhoto (md5 f) w1 with
      | Some _ => (w1, None)
      | None =>
          let w2 := with_photos (l :: photos w1) w1 in
          let w3 := Nudify_emitUpdate w2 in
          let w4 := if decide (MAX_PHOTOS < length (photos w3))
                    then with_photos (removelast (photos w3)) w3
                    else w3 in
          if decide (uploadMode (settings w4) = "add-queue") then
            (Nudify_addToQueue l w4, None)
          else if decide (uploadMode (settings w4) = "go-preferences") then
            (emit (RouterPush ("/nudify/" +:+ md5 f)) w4, None)
          else (w4, None)
      end
  end.

(** [runAll(status = 'pending')] *)
Definition Nudify_runAll (st : string) (w : World) : World :=
  foldl (λ w' l,
           if decide (status <$> store w' !! l = Some st)
           then Nudify_addToQueue l w' else w')
        w (photos w).

(** ** A concrete application state

    The preferences of [_loadInitital] as objects on the heap (the
    progressive rate, a fraction, is left out), no photo yet. *)

Definition body_part (size : string) (randomize progressive : bool)
  : Js.object :=
  [("size", Js.VStr size); ("randomize", Js.VBool randomize);
   ("progressive", Js.VBool progressive)].

Definition initial_heap : Js.heap :=
  [ (* 0 *) [("body", Js.VRef 1); ("advanced", Js.VRef 2)];
    (* 1 *) [("executions", Js.VNum 1); ("randomize", Js.VBool false);
             ("progressive", Js.VRef 3); ("boobs", Js.VRef 4);
             ("areola", Js.VRef 5); ("nipple", Js.VRef 6);
             ("vagina", Js.VRef 7); ("pubicHair", Js.VRef 8)];
    (* 2 *) [("scaleMode", Js.VStr "auto-rescale");
             ("useColorTransfer", Js.VBool false);
             ("useWaifu", Js.VBool false)];
    (* 3 *) [("enabled", Js.VBool false)];
    (* 4 *) body_part "1" true true;
    (* 5 *) body_part "1" false true;
    (* 6 *) body_part "1" false true;
    (* 7 *) body_part "0.75" true true;
    (* 8 *) body_part "1" true true ].

Definition initial_settings : Settings :=
  {| uploadMode := "add-queue"; device := "GPU"; allRuns := true;
     settings_preferences := Js.VRef 0 |}.

Definition initial_world : World :=
  {| heap := initial_heap; settings := initial_settings; store := [];
     photos := []; gqueue := Nudify_setup;
     env := {| activeWindow := None; writeDataURL_ok := true |};
     log := [] |}.

Definition jpeg (name hash : string) : File :=
  {| file_exists := true; mimetype := "image/jpeg";
     path := "/photos/" +:+ name; fullname := name; md5 := hash |}.

(** ** The coalesced notification: lodash's [debounce]

    [Nudify.emitUpdate] is [debounce(f, 100, { leading: true })].  lodash is
    not part of the repository; what follows is the algorithm of its
    [debounce] (without the [maxWait] option, which the code does not pass)
    over a clock in milliseconds. *)

Module Debounce.

Local Open Scope Z_scope.

Record Options := {
  leading : bool;
  trailing : bool;
}.

(** [leading = !!options.leading] and
    [trailing = 'trailing' in options ? !!options.trailing : trailing],
    where [trailing] starts as [true]. *)
Definition make_options (leading' trailing' : option bool) : Options :=
  {| leading := default false leading'; trailing := default true trailing' |}.

Record State := {
  lastArgs : bool;               (* [lastArgs] is set *)
  lastCallTime : option Z;
  lastInvokeTime : Z;
  timerId : option Z;            (* when the pending timer fires *)
  invocations : list Z;          (* when [func] was invoked, oldest first *)
}.

Definition init : State :=
  {| lastArgs := false; lastCallTime := None; lastInvokeTime := 0;
     timerId := None; invocations := [] |}.

Section Debounced.

Variable wait : Z.
Variable options : Options.

Definition invokeFunc (time : Z) (s : State) : State :=
  {| lastArgs := false; lastCallTime := lastCallTime s;
     lastInvokeTime := time; timerId := timerId s;
     invocations := invocations s ++ [time] |}.

Definition leadingEdge (time : Z) (s : State) : State :=
  let s1 := {| lastArgs := lastArgs s; lastCallTime := lastCallTime s;
               lastInvokeTime := time; timerId := Some (time + wait);
               invocations := invocations s |} in
  if leading options then invokeFunc time s1 else s1.

Definition remainingWait (time : Z) (s : State) : Z :=
  let timeSinceLastCall := time - default 0 (lastCallTime s) in
  wait - timeSinceLastCall.

Definition shouldInvoke (time : Z) (s : State) : bool :=
  match lastCallTime s with
  | None => true
  | Some c =>
      let timeSinceLastCall := time - c in
      (wait <=? timeSinceLastCall) || (timeSinceLastCall <? 0)
  end.

Definition trailingEdge (time : Z) (s : State) : State :=
  let s1 := {| lastArgs := lastArgs s; lastCallTime := lastCallTime s;
               lastInvokeTime := lastInvokeTime s; timerId := None;
               invocations := invocations s |} in
  if trailing options && lastArgs s1 then invokeFunc time s1
  else {| lastArgs := false; lastCallTime := lastCallTime s1;
          lastInvokeTime := lastInvokeTime s1; timerId := None;
          invocations := invocations s1 |}.

Definition timerExpired (time : Z) (s : State) : State :=
  if shouldInvoke time s then trailingEdge time s
  else {| lastArgs := lastArgs s; lastCallTime := lastCallTime s;
          lastInvokeTime := lastInvokeTime s;
          timerId := Some (time + remainingWait time s);
          invocations := invocations s |}.

(** A call of the debounced function at [time]. *)
Definition debounced (time : Z) (s : State) : State :=
  let isInvoking := shouldInvoke time s in
  let s1 := {| lastArgs := true; lastCallTime := Some time;
               lastInvokeTime := lastInvokeTime s; timerId := timerId s;
               invocations := invocations s |} in
  match timerId s1 with
  | None =>
      if isInvoking then leadingEdge time s1
      else {| lastArgs := lastArgs s1; lastCallTime := lastCallTime s1;
              lastInvokeTime := lastInvokeTime s1;
              timerId := Some (time + wait);
              invocations := invocations s1 |}
  | Some _ => s1
  end.

(** The timers that are due by [now] fire, each at its own time. *)
Fixpoint fire_timers (fuel : nat) (now : Z) (s : State) : State :=
  match fuel with
  | O => s
  | S fuel' =>
      match timerId s with
      | Some t => if t <=? now then fire_timers fuel' now (timerExpired t s)
                  else s
      | None => s
      end
  end.

(** The pending timers fire, however late. *)
Fixpoint flush (fuel : nat) (s : State) : State :=
  match fuel with
  | O => s
  | S fuel' =>
      match timerId s with
      | Some t => flush fuel' (timerExpired t s)
      | None => s
      end
  end.

(** A timer that does not invoke is set again for [wait] after the last
    call, where it does invoke: two rounds settle every state. *)
Definition rounds : nat := 2.

(** The calls arrive at the given times, oldest first. *)
Definition calls (times : list Z) (s : State) : State :=
  foldl (λ s' t, debounced t (fire_timers rounds t s')) s times.

(** When [func] is invoked for calls at the given times and silence after. *)
Definition emissions (times : list Z) : list Z :=
  invocations (flush rounds (calls times init)).

End Debounced.

(** [debounce(() => events.emit('nudify.update'), 100, { leading: true })] *)
Definition emitUpdate_wait : Z := 100.
Definition emitUpdate_options : Options := make_options (Some true) None.

Definition nudify_update (times : list Z) : list Z :=
  emissions emitUpdate_wait emitUpdate_options times.

(** The state between two requests of a burst that began at [t0], after
    the emissions [before]: the last request came at [c], a timer is pending
    within [wait] of it, and of this burst only the leading edge has been
    emitted. *)
Definition in_burst (before : list Z) (t0 c : Z) (again : bool) (s : State)
  : Prop :=
  lastCallTime s = Some c ∧ lastArgs s = again ∧
  invocations s = before ++ [t0] ∧
  ∃ e, timerId s = Some e ∧ c < e <= c + emitUpdate_wait.

(** A burst within one window: every request arrives, in order, less than
    [wait] after the first one. *)
Definition within_window (wait first : Z) (rest : list Z) : Prop :=
  Sorted Z.le (first :: rest) ∧ Forall (λ t, t < first + wait) rest.

(** A burst in the sense of the debounce: every request arrives less than
    [wait] after the one before it. *)
Fixpoint chained (wait prev : Z) (rest : list Z) : Prop :=
  match rest with
  | [] => True
  | t :: rest' => prev <= t < prev + wait ∧ chained wait t rest'
  end.

(** A burst is its first request and the requests that follow it. *)
Definition burst_times (b : Z * list Z) : list Z := b.1 :: b.2.

Definition burst_last (b : Z * list Z) : Z := default b.1 (last b.2).

(** Bursts that come one after the other: each within one window, and each
    beginning at least [wait] after the last request before it. *)
Fixpoint separated (wait : Z) (prev : option Z) (bs : list (Z * list Z))
  : Prop :=
  match bs with
  | [] => True
  | b :: bs' =>
      (∀ c, prev = Some c → c + wait <= b.1) ∧
      within_window wait b.1 b.2 ∧
      separated wait (Some (burst_last b)) bs'
  end.

(** In words: a burst is emitted on its leading edge, and once more, [wait]
    after its last request, when it has more than one request. *)
Definition burst_emissions (wait : Z) (b : Z * list Z) : list Z :=
  b.1 :: (if b.2 is [] then [] else [burst_last b + wait]).

End Debounce.

(** ** The settings document and its upgrade *)

Module SettingsService.

(** A settings document as it is read from [settings.json]. *)
#[warnings="-register-all"]
Inductive json :=
| JUndef
| JNull
| JBool (b : bool)
| JNum (n : Z)
| JDec (digits : string)               (* a number with a fraction *)
| JStr (s : string)
| JArr (items : list json)
| JObj (fields : list (string * json)).

Fixpoint lookup_field (fs : list (string * json)) (k : string) : json :=
  match fs with
  | [] => JUndef
  | (k', v) :: fs' => if decide (k = k') then v else lookup_field fs' k
  end.

Fixpoint assign_field (fs : list (string * json)) (k : string) (v : json)
  : list (string * json) :=
  match fs with
  | [] => [(k, v)]
  | (k', v') :: fs' =>
      if decide (k = k') then (k, v) :: fs' else (k', v') :: assign_field fs' k v
  end.

(** [x.k] and [const { k } = x]: [None] is the TypeError on [undefined] and
    [null]. *)
Definition jget (x : json) (k : string) : option json :=
  match x with
  | JObj fs => Some (lookup_field fs k)
  | JUndef | JNull => None
  | _ => Some JUndef
  end.

(** [x.k = v] in strict code: only an object takes the property. *)
Definition jset (x : json) (k : string) (v : json) : option json :=
  match x with
  | JObj fs => Some (JObj (assign_field fs k v))
  | _ => None
  end.

(** [x.k1.k2 = v] *)
Definition jset2 (x : json) (k1 k2 : string) (v : json) : option json :=
  y ← jget x k1; y' ← jset y k2 v; jset x k1 y'.

(** The own properties that [{ ...x }] copies; [undefined] and [null]
    spread to nothing. *)
Definition spread (x : json) : list (string * json) :=
  match x with
  | JObj fs => fs
  | _ => []
  end.

Definition truthy (x : json) : bool :=
  match x with
  | JUndef | JNull | JBool false | JNum 0 | JStr "" => false
  | _ => true
  end.

(** [x === n] for a number [n]. *)
Definition is_num (n : Z) (x : json) : bool :=
  match x with
  | JNum m => bool_decide (m = n)
  | _ => false
  end.

(** [x === y]: primitives by value; the objects of two documents are never
    the same object. *)
Definition strict_eq (x y : json) : bool :=
  match x, y with
  | JUndef, JUndef | JNull, JNull => true
  | JBool a, JBool b => bool_decide (a = b)
  | JNum a, JNum b => bool_decide (a = b)
  | JDec a, JDec b => bool_decide (a = b)
  | JStr a, JStr b => bool_decide (a = b)
  | _, _ => false
  end.

(** What [_loadInitital] reads from the machine it runs on. *)
Record System := {
  hasGPU : bool;
  cores : Z;                     (* [round(system.cores / 2) || 4] *)
  user : string;                 (* [uuid()] *)
  development : bool;            (* [NODE_ENV === 'development'] *)
  temp : string;
  userData : string;
}.

Definition part (size : string) (randomize progressive : bool) : json :=
  JObj [("size", JStr size); ("randomize", JBool randomize);
        ("progressive", JBool progressive)].

(** The payload that [_loadInitital] builds, which is also [_default]. *)
Definition _loadInitital (sys : System) : json :=
  JObj [
    ("version", JNum 4);
    ("welcome", JBool true);
    ("user", JStr (user sys));
    ("app", JObj [("disableHardwareAcceleration", JBool false);
                  ("uploadMode", JStr "add-queue")]);
    ("processing", JObj [("device", JStr (if hasGPU sys then "GPU" else "CPU"));
                         ("gpus", JArr [JNum 0]);
                         ("cores", JNum (cores sys));
                         ("disablePersistentGan", JBool false);
                         ("usePython", JBool (development sys))]);
    ("preferences", JObj [
       ("body", JObj [("executions", JNum 1);
                      ("randomize", JBool false);
                      ("progressive", JObj [("enabled", JBool false);
                                            ("rate", JDec "0.1")]);
                      ("boobs", part "1" true true);
                      ("areola", part "1" false true);
                      ("nipple", part "1" false true);
                      ("vagina", part "0.75" true true);
                      ("pubicHair", part "1" true true)]);
       ("advanced", JObj [("scaleMode", JStr "auto-rescale");
                          ("useColorTransfer", JBool false);
                          ("useWaifu", JBool false)])]);
    ("notifications", JObj [("run", JBool false); ("allRuns", JBool true);
                            ("update", JBool true)]);
    ("folders", JObj [("cropped", JStr (temp sys));
                      ("models", JStr (userData sys +:+ "/models"));
                      ("masks", JStr (userData sys +:+ "/masks"));
                      ("cli", JStr (userData sys +:+ "/dreampower"))]);
    ("telemetry", JObj [("enabled", JBool true)])
  ].

(** The three steps of [_upgrade].  Each works on [newSettings], a deep copy
    of the payload; the first one also writes through [_default], whose
    [preferences] object it shares. *)

Definition upgrade_1_2 (default payload newSettings : json)
  : option (json * json) :=
  s1 ← jset newSettings "version" (JNum 2);
  prefs ← jget default "preferences";
  notifications ← jget default "notifications";
  old ← jget payload "preferences";
  boobsSize ← jget old "boobsSize";
  areolaSize ← jget old "areolaSize";
  nippleSize ← jget old "nippleSize";
  vaginaSize ← jget old "vaginaSize";
  pubicHairSize ← jget old "pubicHairSize";
  p1 ← jset2 prefs "boobs" "size" boobsSize;
  p2 ← jset2 p1 "areola" "size" areolaSize;
  p3 ← jset2 p2 "nipple" "size" nippleSize;
  p4 ← jset2 p3 "vagina" "size" vaginaSize;
  p5 ← jset2 p4 "pubicHair" "size" pubicHairSize;
  s2 ← jset s1 "preferences" p5;
  s3 ← jset s2 "notifications" notifications;
  default' ← jset default "preferences" p5;
  Some (default', s3).

Definition upgrade_2_3 (payload newSettings : json) : option json :=
  processing ← jget payload "processing";
  preferences ← jget payload "preferences";
  s1 ← jset newSettings "version" (JNum 3);
  s2 ← jset s1 "processing"
         (JObj (assign_field
                  (assign_field (spread processing) "cores" (JNum 4))
                  "disablePersistentGan" (JBool false)));
  executions ← jget preferences "executions";
  randomizePreferences ← jget preferences "randomizePreferences";
  progressivePreferences ← jget preferences "progressivePreferences";
  boobs ← jget preferences "boobs";
  areola ← jget preferences "areola";
  nipple ← jget preferences "nipple";
  vagina ← jget preferences "vagina";
  pubicHair ← jget preferences "pubicHair";
  jset s2 "preferences"
    (JObj [("body", JObj [("executions", executions);
                          ("randomize", randomizePreferences);
                          ("progressive",
                           JObj [("enabled", progressivePreferences);
                                 ("rate", JDec "0.1")]);
                          ("boobs", boobs);
                          ("areola", areola);
                          ("nipple", nipple);
                          ("vagina", vagina);
                          ("pubicHair", pubicHair)]);
           ("advanced", JObj [("scaleMode", JStr "auto-rescale");
                              ("useColorTransfer", JBool false);
                              ("useWaifu", JBool false)])]).

Definition upgrade_3_4 (newSettings : json) : option json :=
  s1 ← jset newSettings "version" (JNum 4);
  jset s1 "app" (JObj [("disableHardwareAcceleration", JBool false);
                       ("uploadMode", JStr "add-queue")]).

(** How [_upgrade] ends. *)
Inductive Upgrade :=
| UpToDate                                  (* it returns at once *)
| SetPayload (default' newSettings : json)  (* [this.set(newSettings)] *)
| TypeError.                                (* it throws *)

(** [_upgrade()], for [this._default] and [this.payload]. *)
Definition _upgrade (default payload : json) : Upgrade :=
  match jget payload "version", jget default "version" with
  | Some version, Some newVersion =>
      let currentVersion := if truthy version then version else JNum 1 in
      if strict_eq newVersion currentVersion then UpToDate
      else
        let currentSettings := payload in
        let newSettings := currentSettings (* cloneDeep *) in
        let r1 :=
          if is_num 1 currentVersion && is_num 2 newVersion
          then upgrade_1_2 default payload newSettings
          else Some (default, newSettings) in
        let r2 :=
          '(d, s) ← r1;
          if is_num 2 currentVersion && is_num 3 newVersion
          then s' ← upgrade_2_3 currentSettings s; Some (d, s')
          else Some (d, s) in
        let r3 :=
          '(d, s) ← r2;
          if is_num 3 currentVersion && is_num 4 newVersion
          then s' ← upgrade_3_4 s; Some (d, s')
          else Some (d, s) in
        match r3 with
        | Some (d, s) => SetPayload d s
        | None => TypeError
        end
  | _, _ => TypeError
  end.

(** The version a document carries. *)
Definition version_of (doc : json) : json :=
  default JUndef (jget doc "version").

(** A document of version 1: the sizes sit flat in [preferences]. *)
Definition settings_v1 : json :=
  JObj [("version", JNum 1);
        ("processing", JObj [("device", JStr "GPU"); ("gpus", JArr [JNum 0])]);
        ("preferences", JObj [("boobsSize", JStr "1");
                              ("areolaSize", JStr "1");
                              ("nippleSize", JStr "1");
                              ("vaginaSize", JStr "0.75");
                              ("pubicHairSize", JStr "1");
                              ("executions", JNum 1)])].

Definition this_system : System :=
  {| hasGPU := true; cores := 4; user := "user"; development := false;
     temp := "/tmp"; userData := "/home/user/.config/dreamtime" |}.

(** The per-body-part shape [{ size, randomize, progressive }] of the
    preferences of version 3 and later. *)
Definition has_part_shape (x : json) : bool :=
  match x with
  | JObj [("size", _); ("randomize", _); ("progressive", _)] => true
  | _ => false
  end.

Definition restructured (doc : json) : bool :=
  match jget doc "preferences" ≫= (λ p, jget p "body") with
  | Some body =>
      forallb (λ k, has_part_shape (default JUndef (jget body k)))
              ["boobs"; "areola"; "nipple"; "vagina"; "pubicHair"]
  | None => false
  end.

End SettingsService.


(** ** Notions used in the statements *)

(** The fields of a photo that no method assigns after construction. *)
Definition static (p : Photo) : string * File * Js.value * bool * QueueOptions :=
  (id p, file p, preferences p, cropper p, q_options (queue p)).

(** [frame w w']: from [w] to [w'] the registry, the settings, the heap and
    the environment are the same, every photo keeps its static fields, and
    the log only grows. *)
Definition frame (w w' : World) : Prop :=
  settings w' = settings w ∧ env w' = env w ∧ heap w' = heap w ∧
  photos w' = photos w ∧ static <$> store w' = static <$> store w ∧
  ∃ evs, log w' = log w ++ evs.

Definition text_file : File :=
  {| file_exists := true; mimetype := "text/plain"; path := "/notes.txt";
     fullname := "notes.txt"; md5 := "d41d8" |}.

(** The registry is in order when every entry refers to a photo and no two
    entries have the same id. *)
Definition registry_ok (w : World) : Prop :=
  Forall (λ l, l < length (store w)) (photos w) ∧
  NoDup (photo_id w <$> photos w).

(** The entries of the registry with a given id. *)
Definition entries_with_id (i : string) (w : World) : list loc :=
  filter (λ l, photo_id w l = Some i) (photos w).

(** What [_sendNotification] shows for photo [p] in world [w]. *)
Definition notification_for (w : World) (p : Photo) : list Event :=
  match activeWindow (env w) with
  | Some true => []
  | _ =>
      if allRuns (settings w) then
        [Notification ("📷 " +:+ fullname (file p) +:+ " has finished.")
                      "The photo has completed the transformation process."]
      else []
  end.

(** The world in which [a.jpg] was added and waits in the global queue. *)
Definition one_waiting : World :=
  (Nudify_add (jpeg "a.jpg" "aaa") initial_world).1.

(** The world in which [a.jpg] was dispatched and its only run waits in the
    queue of the photo. *)
Definition one_running : World :=
  default one_waiting (fst <$> Nudify__run one_waiting).

(** The queue of photo [l] in world [w]. *)
Definition queue_of (w : World) (l : loc) : option Queue :=
  queue <$> store w !! l.

(** With one worker the queue handles its tasks one after the other, each
    with the outcome [out] gives it, and then announces the drain. *)
Definition serial (out : Z → Outcome) (ids : list Z) : list Choice :=
  flat_map (λ rid, [Dispatch; Complete rid (out rid)]) ids ++ [Drain].

(** The reason with which a unit fails, if it fails: the queue takes a
    rejection for a failure when its reason is truthy. *)
Definition failure (o : Outcome) : option JsError :=
  match o with
  | Resolved => None
  | Rejected e => if is_truthy e then Some e else None
  end.

(** In words: a unit that fails is reported to [AppError.handle] unless the
    reason is the string ['cancelled']. *)
Definition reported (o : Outcome) : list Event :=
  match failure o with
  | None => []
  | Some e => if decide (e = ErrString "cancelled") then [] else [Handle e]
  end.

(** In words: every unit is started, in the order of the queue, whatever
    became of the units before it. *)
Definition units_trace (l : loc) (out : Z → Outcome) (ids : list Z)
  : list Event :=
  flat_map (λ rid, RunStart l rid :: reported (out rid)) ids.

(** The hooks a run goes through from dispatch to its outcome. *)
Definition settle (o : Outcome) : PhotoRun → PhotoRun :=
  match failure o with
  | None => PhotoRun_onFinish
  | Some _ => PhotoRun_onFail
  end ∘ PhotoRun_onStart.

Definition settled_status (o : Outcome) : RunStatus :=
  match failure o with
  | None => RunFinished
  | Some _ => RunFailed
  end.

(** The initial world with another execution count in the preferences. *)
Definition with_executions (n : Z) : World :=
  with_heap (default initial_heap
               (Js.set_path initial_heap (Js.VRef 0) ["body"; "executions"]
                            (Js.VNum n)))
            initial_world.

(** The worlds in which a photo with three executions, or with none, was
    added and waits in the global queue. *)
Definition three_waiting : World :=
  (Nudify_add (jpeg "b.jpg" "bbb") (with_executions 3)).1.

Definition zero_waiting : World :=
  (Nudify_add (jpeg "c.jpg" "ccc") (with_executions 0)).1.

(** The world in which the photo with three executions was dispatched. *)
Definition three_runs : World :=
  default three_waiting (fst <$> Nudify__run three_waiting).

(** The second of three runs fails, the third is cancelled. *)
Definition second_fails (rid : Z) : Outcome :=
  if decide (rid = 2%Z) then Rejected (ErrObject "transform failed")
  else if decide (rid = 3%Z) then Rejected (ErrString "cancelled")
  else Resolved.

(** What the user and the queues may do to the application. *)
Inductive Action :=
| Add (f : File)
| AddToQueue (l : loc)
| RemoveFromQueue (l : loc)
| Remove (l : loc)
| RunAll (st : string)
| Run                                   (* the global queue dispatches *)
| Cancel (l : loc) (st : string)
| Rerun (l : loc) (rid : Z)
| QueueStep (l : loc) (c : Choice).     (* the queue of a photo moves *)

(** An action that is not possible leaves the world as it is. *)
Definition act (w : World) (a : Action) : World :=
  match a with
  | Add f => (Nudify_add f w).1
  | AddToQueue l => Nudify_addToQueue l w
  | RemoveFromQueue l => Nudify_removeFromQueue l w
  | Remove l => Nudify_remove l w
  | RunAll st => Nudify_runAll st w
  | Run => default w (fst <$> Nudify__run w)
  | Cancel l st => Photo_cancel l st w
  | Rerun l rid => Photo_rerun l rid w
  | QueueStep l c => default w (queue_step l c w)
  end.

(** A registry filled to capacity: a thousand photos, the newest first. *)
Definition full_world : World :=
  {| heap := initial_heap;
     settings := initial_settings;
     store := (λ n, {| id := pretty n; file := jpeg (pretty n) (pretty n);
                       status := "pending";
                       queue := Photo__setupQueue initial_settings;
                       runs := []; preferences := Js.VRef 0;
                       timer := TimerNew; cropper := false;
                       suspended := 0 |}) <$> seq 0 MAX_PHOTOS;
     photos := reverse (seq 0 MAX_PHOTOS);
     gqueue := Nudify_setup;
     env := {| activeWindow := None; writeDataURL_ok := true |};
     log := [] |}.

(** The world right after [new Photo(a.jpg)], and the same world after
    [settings.preferences.body.executions = 5]. *)
Definition photo_made : World :=
  (Photo_new (jpeg "a.jpg" "aaa") initial_world).1.

Definition settings_changed : World :=
  with_heap (default (heap photo_made)
               (Js.set_path (heap photo_made)
                            (settings_preferences (settings photo_made))
                            ["body"; "executions"] (Js.VNum 5)))
            photo_made.

(** [photo.preferences.body.executions] as photo [l] reads it in [w]. *)
Definition photo_executions (w : World) (l : loc) : option Js.value :=
  p ← store w !! l;
  Js.get_path (heap w) (preferences p) ["body"; "executions"].

(** The queue of a photo has one worker, and no more than one run at
    work. *)
Definition one_worker (p : Photo) : Prop :=
  concurrent (q_options (queue p)) = 1 ∧ length (q_workers (queue p)) ≤ 1.

Definition queues_ok (w : World) : Prop := Forall one_worker (store w).
(** * Properties *)

(** ** What the methods leave alone *)


Lemma frame_refl w : frame w w.
Proof. repeat split; try reflexivity. exists []. by rewrite app_nil_r. Qed.

Lemma frame_trans w1 w2 w3 : frame w1 w2 → frame w2 w3 → frame w1 w3.
Proof.
  intros (Hs & He & Hh & Hp & Hst & evs & Hl) (Hs' & He' & Hh' & Hp' & Hst' & evs' & Hl').
  repeat split; try congruence.
  exists (evs ++ evs'). rewrite Hl', Hl. by rewrite app_assoc.
Qed.

Lemma fmap_alter_static (f : Photo → Photo) l (s : list Photo) :
  (∀ p, static (f p) = static p) → static <$> alter f l s = static <$> s.
Proof.
  intros Hf. revert l. induction s as [|p s IH]; intros [|l]; simpl; try done.
  - by rewrite Hf.
  - f_equal. apply IH.
Qed.

Lemma frame_on_photo l f w :
  (∀ p, static (f p) = static p) → frame w (on_photo l f w).
Proof.
  intros Hf. repeat split; simpl; try reflexivity.
  - by apply fmap_alter_static.
  - exists []. by rewrite app_nil_r.
Qed.

Lemma frame_emit e w : frame w (emit e w).
Proof. repeat split; simpl; try reflexivity. by exists [e]. Qed.

Lemma frame_with_gqueue g w : frame w (with_gqueue g w).
Proof. repeat split; simpl; try reflexivity. exists []. by rewrite app_nil_r. Qed.

Lemma on_run_static rid f p : static (on_run rid f p) = static p.
Proof. unfold on_run. by destruct (1 <=? rid)%Z. Qed.

Lemma on_queue_static f p :
  (∀ q, q_options (f q) = q_options q) → static (on_queue f p) = static p.
Proof. intros Hf. unfold static, on_queue. simpl. by rewrite Hf. Qed.

Lemma Queue_push_options rid q : q_options (Queue_push rid q) = q_options q.
Proof. unfold Queue_push. by case_decide. Qed.

Create HintDb frame.

#[local] Hint Resolve frame_emit frame_with_gqueue : frame.
#[local] Hint Extern 2 (frame _ (on_photo _ _ _)) =>
  apply frame_on_photo;
  first [ intros; apply on_run_static
        | intros; apply on_queue_static;
          first [ apply Queue_push_options | by intros [] ]
        | by intros [] ]
  : frame.

(** A composition of methods is framed one method at a time, the last one
    first. *)
Ltac frame_auto :=
  first [ match goal with |- frame ?w ?w => apply frame_refl end
        | solve [ eauto with frame ]
        | eapply frame_trans; [ | solve [ eauto with frame ] ]; frame_auto ].

Lemma frame_set_status l s w : frame w (Photo_set_status l s w).
Proof. unfold Photo_set_status, Nudify_emitUpdate. frame_auto. Qed.

#[local] Hint Resolve frame_set_status : frame.

Lemma frame_sendNotification l w : frame w (Photo__sendNotification l w).
Proof. unfold Photo__sendNotification. repeat case_match; frame_auto. Qed.

Lemma frame_emit_finish l w : frame w (Photo_emit_finish l w).
Proof. unfold Photo_emit_finish. repeat case_match; frame_auto. Qed.

#[local] Hint Resolve frame_sendNotification frame_emit_finish : frame.

Lemma frame_onFinish l s w : frame w (Photo__onFinish l s w).
Proof. unfold Photo__onFinish. frame_auto. Qed.

Lemma frame_onStart l w : frame w (Photo__onStart l w).
Proof. unfold Photo__onStart. frame_auto. Qed.

Lemma frame_reset l w : frame w (Photo_reset l w).
Proof. unfold Photo_reset. frame_auto. Qed.

Lemma frame_on_task_failed l rid e w : frame w (Photo_on_task_failed l rid e w).
Proof. unfold Photo_on_task_failed. repeat case_match; frame_auto. Qed.

Lemma frame_on_task_finish l rid w : frame w (Photo_on_task_finish l rid w).
Proof. unfold Photo_on_task_finish. repeat case_match; frame_auto. Qed.

Lemma frame_on_task_started l rid w : frame w (Photo_on_task_started l rid w).
Proof. unfold Photo_on_task_started. frame_auto. Qed.

#[local] Hint Resolve frame_onFinish frame_onStart frame_reset
  frame_on_task_failed frame_on_task_finish frame_on_task_started : frame.

Lemma frame_cancelRun l rid w : frame w (Photo_cancelRun l rid w).
Proof. unfold Photo_cancelRun. repeat case_match; frame_auto. Qed.

#[local] Hint Resolve frame_cancelRun : frame.

Lemma frame_foldl {A} (f : World → A → World) (xs : list A) w :
  (∀ w' x, frame w' (f w' x)) → frame w (foldl f w xs).
Proof.
  intros Hf. revert w. induction xs as [|x xs IH]; intros w; simpl.
  - apply frame_refl.
  - eapply frame_trans; [apply Hf | apply IH].
Qed.

Lemma frame_cancel l s w : frame w (Photo_cancel l s w).
Proof.
  unfold Photo_cancel. eapply frame_trans; [ | apply frame_onFinish ].
  apply frame_foldl. intros. apply frame_cancelRun.
Qed.

#[local] Hint Resolve frame_cancel : frame.

Lemma frame_removeFromQueue l w : frame w (Nudify_removeFromQueue l w).
Proof. unfold Nudify_removeFromQueue. repeat case_match; frame_auto. Qed.

Lemma frame_addToQueue l w : frame w (Nudify_addToQueue l w).
Proof. unfold Nudify_addToQueue. frame_auto. Qed.

#[local] Hint Resolve frame_removeFromQueue frame_addToQueue : frame.

Lemma frame_lookup w w' l p :
  frame w w' → store w !! l = Some p →
  ∃ p', store w' !! l = Some p' ∧ static p' = static p.
Proof.
  intros (_ & _ & _ & _ & Hst & _) Hl.
  assert (Hs : (static <$> store w') !! l = Some (static p))
    by (rewrite Hst, list_lookup_fmap, Hl; done).
  rewrite list_lookup_fmap in Hs.
  destruct (store w' !! l) as [p'|]; [|discriminate].
  exists p'. split; [done|]. simpl in Hs. congruence.
Qed.

Lemma frame_photo_id w w' l : frame w w' → photo_id w' l = photo_id w l.
Proof.
  intros (_ & _ & _ & _ & Hst & _). unfold photo_id.
  assert (Hs : (static <$> store w') !! l = (static <$> store w) !! l)
    by (by rewrite Hst).
  rewrite !list_lookup_fmap in Hs.
  destruct (store w' !! l), (store w !! l); simpl in *; try done.
  unfold static in Hs. congruence.
Qed.

Lemma frame_photos w w' : frame w w' → photos w' = photos w.
Proof. by intros (_ & _ & _ & ? & _). Qed.

Lemma frame_length w w' : frame w w' → length (store w') = length (store w).
Proof.
  intros (_ & _ & _ & _ & Hst & _).
  rewrite <- (length_fmap static (store w')), Hst. apply length_fmap.
Qed.

(** ** Construction *)

Lemma Photo_new_frame f w :
  photos (Photo_new f w).1 = photos w ∧ log (Photo_new f w).1 = log w ∧
  gqueue (Photo_new f w).1 = gqueue w ∧
  settings (Photo_new f w).1 = settings w ∧ env (Photo_new f w).1 = env w.
Proof.
  unfold Photo_new. destruct (Js.clone _ _) as [h prefs].
  destruct (Photo__validate f); simpl; auto.
Qed.

Lemma Photo_new_invalid f w e :
  Photo__validate f = Some e →
  (Photo_new f w).2 = inl e ∧ store (Photo_new f w).1 = store w.
Proof.
  intros H. unfold Photo_new. destruct (Js.clone _ _) as [h prefs].
  rewrite H. simpl. auto.
Qed.

Lemma Photo_new_valid f w :
  Photo__validate f = None →
  ∃ p, (Photo_new f w).2 = inr (length (store w)) ∧
       store (Photo_new f w).1 = store w ++ [p] ∧
       id p = md5 f ∧ file p = f ∧ status p = "pending" ∧ runs p = [] ∧
       queue p = Photo__setupQueue (settings w) ∧
       preferences p = (Js.clone (heap w) (settings_preferences (settings w))).2.
Proof.
  intros H. unfold Photo_new. destruct (Js.clone _ _) as [h prefs].
  rewrite H. simpl. eexists. repeat split; reflexivity.
Qed.

Lemma Photo_new_result f w :
  (∃ e, Photo__validate f = Some e ∧ (Photo_new f w).2 = inl e) ∨
  (Photo__validate f = None ∧ (Photo_new f w).2 = inr (length (store w))).
Proof.
  destruct (Photo__validate f) as [e|] eqn:Hv.
  - left. exists e. split; [done|]. by apply Photo_new_invalid.
  - right. split; [done|]. by destruct (Photo_new_valid f w Hv) as (p & ? & _).
Qed.

Lemma validate_accepts f :
  Photo__validate f = None ↔
  file_exists f = true ∧
  (mimetype f = "image/jpeg" ∨ mimetype f = "image/png"
   ∨ mimetype f = "image/gif").
Proof.
  unfold Photo__validate. destruct (file_exists f); simpl.
  - repeat case_bool_decide; simpl; split; intros; try discriminate; tauto.
  - split; [discriminate|]. intros [? _]. discriminate.
Qed.

(** ** C10: a file that fails validation leaves the registry alone *)

(** C10.  [_validate] accepts exactly the files that exist and whose MIME
    type is image/jpeg, image/png or image/gif; when it rejects the file,
    [add] throws the error of the validation, and the registry collection,
    the log of emitted updates, the global queue and the photo instances
    are what they were before the call. *)
Theorem add_invalid_file_is_atomic (f : File) (w : World) (e : JsError) :
  Photo__validate f = Some e →
  ¬ (file_exists f = true ∧
     (mimetype f = "image/jpeg" ∨ mimetype f = "image/png"
      ∨ mimetype f = "image/gif")) ∧
  (Nudify_add f w).2 = Some e ∧
  photos (Nudify_add f w).1 = photos w ∧
  log (Nudify_add f w).1 = log w ∧
  gqueue (Nudify_add f w).1 = gqueue w ∧
  store (Nudify_add f w).1 = store w.
Proof.
  intros Hv. split.
  { rewrite <- validate_accepts. congruence. }
  destruct (Photo_new_invalid f w e Hv) as [Hr Hs].
  destruct (Photo_new_frame f w) as (Hp & Hl & Hg & _).
  unfold Nudify_add. destruct (Photo_new f w) as [w1 [e'|l]]; simpl in *.
  - by simplify_eq.
  - discriminate.
Qed.


Lemma add_invalid_file_is_atomic_witness :
  ∃ e, (Nudify_add text_file initial_world).2 = Some e ∧
       photos (Nudify_add text_file initial_world).1 = [] ∧
       log (Nudify_add text_file initial_world).1 = [].
Proof.
  eexists.
  destruct (add_invalid_file_is_atomic text_file initial_world _ eq_refl)
    as (_ & Hr & Hp & Hl & _).
  split; [exact Hr|]. split; [exact Hp | exact Hl].
Defined.

(** ** C6: the capacity of the registry *)

Lemma length_removelast_cons {A} (x : A) (xs : list A) :
  length (removelast (x :: xs)) = length xs.
Proof.
  revert x. induction xs as [|y ys IH]; intros x; [done|].
  change (removelast (x :: y :: ys)) with (x :: removelast (y :: ys)).
  cbn [length]. by rewrite IH.
Qed.

Lemma removelast_cons_cons {A} (x : A) (xs : list A) :
  xs ≠ [] → removelast (x :: xs) = x :: removelast xs.
Proof. by destruct xs. Qed.

(** The registry after an [add] that gets past both early exits. *)
Lemma add_inserts f w l :
  (Photo_new f w).2 = inr l →
  Nudify_getPhoto (md5 f) (Photo_new f w).1 = None →
  (Nudify_add f w).2 = None ∧
  photos (Nudify_add f w).1 =
    if decide (MAX_PHOTOS < S (length (photos w)))
    then removelast (l :: photos w) else l :: photos w.
Proof.
  intros Hr Hg. destruct (Photo_new_frame f w) as (Hp & _).
  unfold Nudify_add. destruct (Photo_new f w) as [w1 [e|l']]; cbn [fst snd] in *;
    [discriminate|]. simplify_eq. rewrite Hg.
  set (w4 := if decide (MAX_PHOTOS < _) then _ else _).
  assert (H4 : photos w4 =
               if decide (MAX_PHOTOS < S (length (photos w)))
               then removelast (l :: photos w) else l :: photos w).
  { subst w4. simpl. rewrite Hp. by case_decide. }
  assert (Hs : settings w4 = settings w1) by (subst w4; by case_decide).
  clearbody w4.
  rewrite <- H4. clear H4.
  repeat case_decide; (split; [done|]); cbn [fst]; done.
Qed.

(** The registry after an [add] that takes one of the early exits. *)
Lemma add_skips f w :
  (∃ e, (Photo_new f w).2 = inl e) ∨
  Nudify_getPhoto (md5 f) (Photo_new f w).1 ≠ None →
  (Nudify_add f w).1 = (Photo_new f w).1.
Proof.
  intros H. unfold Nudify_add.
  destruct (Photo_new f w) as [w1 [e|l]]; simpl in *; [done|].
  destruct H as [[e ?]|H]; [discriminate|].
  by destruct (Nudify_getPhoto (md5 f) w1).
Qed.

Lemma add_front f w l :
  (length (photos w) ≤ MAX_PHOTOS)%nat →
  (Photo_new f w).2 = inr l →
  Nudify_getPhoto (md5 f) (Photo_new f w).1 = None →
  photos (Nudify_add f w).1 =
    l :: (if decide (length (photos w) = MAX_PHOTOS)
          then removelast (photos w) else photos w).
Proof.
  intros Hlen Hr Hg. destruct (add_inserts f w l Hr Hg) as [_ ->].
  repeat case_decide; try lia; [|done].
  apply removelast_cons_cons. intros E. rewrite E in *. simpl in *.
  unfold MAX_PHOTOS in *. lia.
Qed.

Lemma add_capacity f w :
  (length (photos w) ≤ MAX_PHOTOS)%nat →
  (length (photos (Nudify_add f w).1) ≤ MAX_PHOTOS)%nat.
Proof.
  intros Hlen.
  destruct (Photo_new f w).2 as [e|l] eqn:Hr.
  - rewrite add_skips by eauto. by destruct (Photo_new_frame f w) as (-> & _).
  - destruct (Nudify_getPhoto (md5 f) (Photo_new f w).1) eqn:Hg.
    + rewrite add_skips by (right; congruence).
      by destruct (Photo_new_frame f w) as (-> & _).
    + rewrite (add_front f w l Hlen Hr Hg). simpl. case_decide.
      * destruct (photos w) as [|x xs] eqn:E;
          [simpl in *; unfold MAX_PHOTOS in *; lia|].
        rewrite length_removelast_cons. simpl in *. lia.
      * lia.
Qed.

(** ** C7: the same file twice *)

Lemma static_photo_id w w' :
  static <$> store w' = static <$> store w →
  ∀ l, photo_id w' l = photo_id w l.
Proof.
  intros Hst l. unfold photo_id.
  assert (Hs : (static <$> store w') !! l = (static <$> store w) !! l)
    by (by rewrite Hst).
  rewrite !list_lookup_fmap in Hs.
  destruct (store w' !! l), (store w !! l); simpl in *; try done.
  unfold static in Hs. congruence.
Qed.

Lemma Photo_new_store f w :
  store (Photo_new f w).1 = store w ∨
  ∃ p, store (Photo_new f w).1 = store w ++ [p] ∧ id p = md5 f ∧
       (Photo_new f w).2 = inr (length (store w)).
Proof.
  destruct (Photo__validate f) as [e|] eqn:Hv.
  - left. by apply (Photo_new_invalid f w e).
  - right. destruct (Photo_new_valid f w Hv) as (p & ? & ? & ? & _). eauto.
Qed.

Lemma Photo_new_prefix f w : store w `prefix_of` store (Photo_new f w).1.
Proof.
  destruct (Photo_new_store f w) as [->|(p & -> & _)]; [done|].
  by apply prefix_app_r.
Qed.

Lemma photo_id_prefix w w' l :
  store w `prefix_of` store w' → l < length (store w) →
  photo_id w' l = photo_id w l.
Proof.
  intros [k Hk] Hl. unfold photo_id. by rewrite Hk, lookup_app_l.
Qed.

Lemma photo_id_Some_lt w l i : photo_id w l = Some i → l < length (store w).
Proof.
  unfold photo_id. intros H. apply lookup_lt_is_Some.
  destruct (store w !! l); [eauto | discriminate].
Qed.

Lemma getPhoto_None i w :
  Nudify_getPhoto i w = None ↔ Forall (λ l, photo_id w l ≠ Some i) (photos w).
Proof.
  unfold Nudify_getPhoto. rewrite fmap_None. apply list_find_None.
Qed.

Lemma getPhoto_Some i w l :
  Nudify_getPhoto i w = Some l → l ∈ photos w ∧ photo_id w l = Some i.
Proof.
  unfold Nudify_getPhoto. intros H. apply fmap_Some in H as ([k l'] & H & ->).
  apply list_find_Some in H as (H & ? & _). split; [|done].
  by eapply list_elem_of_lookup_2.
Qed.

Lemma getPhoto_found i w l :
  l ∈ photos w → photo_id w l = Some i → Nudify_getPhoto i w ≠ None.
Proof.
  intros Hin Hid. rewrite getPhoto_None, Forall_forall. intros H.
  by apply (H l Hin).
Qed.

(** After the constructor, the statements of [add] change no photo's
    static fields. *)
Lemma add_static f w :
  static <$> store (Nudify_add f w).1 = static <$> store (Photo_new f w).1.
Proof.
  unfold Nudify_add. destruct (Photo_new f w) as [w1 [e|l]]; [done|].
  destruct (Nudify_getPhoto (md5 f) w1); [done|].
  repeat case_decide; cbn [fst]; try done.
  all: match goal with
       | |- context [Nudify_addToQueue ?l ?w] =>
           destruct (frame_addToQueue l w) as (_ & _ & _ & _ & -> & _)
       end; done.
Qed.

Lemma add_photo_id f w l :
  l < length (store w) → photo_id (Nudify_add f w).1 l = photo_id w l.
Proof.
  intros Hl. rewrite (static_photo_id _ _ (add_static f w)).
  apply photo_id_prefix; [apply Photo_new_prefix | done].
Qed.

Lemma add_store_length f w :
  length (store (Nudify_add f w).1) = length (store (Photo_new f w).1).
Proof.
  rewrite <- (length_fmap static), add_static. apply length_fmap.
Qed.

(** An [add] that finds the id in the registry changes nothing that can be
    observed. *)
Lemma add_found_noop f w :
  Nudify_getPhoto (md5 f) w ≠ None →
  (Nudify_add f w).1 = (Photo_new f w).1.
Proof.
  intros Hg. apply add_skips. right.
  destruct (Nudify_getPhoto (md5 f) w) as [l|] eqn:E; [|done].
  apply getPhoto_Some in E as [Hin Hid].
  destruct (Photo_new_frame f w) as (Hp & _).
  apply (getPhoto_found _ _ l); [by rewrite Hp|].
  rewrite <- Hid. apply photo_id_prefix; [apply Photo_new_prefix|].
  by eapply photo_id_Some_lt.
Qed.

Lemma add_inserts_take f w l :
  (Photo_new f w).2 = inr l →
  Nudify_getPhoto (md5 f) (Photo_new f w).1 = None →
  ∃ n, photos (Nudify_add f w).1 = l :: take n (photos w).
Proof.
  intros Hr Hg. destruct (add_inserts f w l Hr Hg) as [_ ->].
  case_decide as Hfull.
  - exists (pred (length (photos w))).
    rewrite removelast_cons_cons, removelast_firstn_len; [done|].
    intros E. rewrite E in Hfull. simpl in Hfull. unfold MAX_PHOTOS in Hfull. lia.
  - exists (length (photos w)). by rewrite firstn_all.
Qed.

(** The registry stays in order. *)
Lemma add_registry_ok f w : registry_ok w → registry_ok (Nudify_add f w).1.
Proof.
  intros [Hval Hnd].
  assert (Hids : ∀ l, l ∈ photos w →
            photo_id (Nudify_add f w).1 l = photo_id w l).
  { intros l Hin. apply add_photo_id.
    by apply (proj1 (Forall_forall _ _) Hval). }
  assert (Hlen : length (store w) ≤ length (store (Nudify_add f w).1)).
  { rewrite add_store_length. apply prefix_length, Photo_new_prefix. }
  destruct (Photo_new f w).2 as [e|l] eqn:Hr;
    [|destruct (Nudify_getPhoto (md5 f) (Photo_new f w).1) eqn:Hg].
  1,2: assert (Hp : photos (Nudify_add f w).1 = photos w)
         by (rewrite add_skips; [by destruct (Photo_new_frame f w) as (-> & _)
                                | first [ by eauto | right; congruence ]]).
  1,2: split; rewrite Hp;
         [ eapply Forall_impl; [exact Hval | simpl; intros; lia]
         | erewrite (list_fmap_ext _ (photo_id w)); [exact Hnd|];
           intros i x Hx; apply Hids; by eapply list_elem_of_lookup_2 ].
  destruct (add_inserts_take f w l Hr Hg) as [n Hp].
  destruct (Photo_new_store f w) as [Hs|(p & Hs & Hid & Hr')];
    [ destruct (Photo_new_result f w) as [(e & _ & He)|[_ He]];
      rewrite Hr in He; [discriminate|];
      assert (length (store (Photo_new f w).1) = length (store w))
        by (by rewrite Hs) |].
  { (* the constructor returned a reference, so it extended the store *)
    exfalso. destruct (Photo__validate f) as [e|] eqn:Hv.
    - destruct (Photo_new_invalid f w e Hv) as [E _]. congruence.
    - destruct (Photo_new_valid f w Hv) as (p & _ & E & _).
      rewrite E, length_app in H. simpl in H. lia. }
  rewrite Hr in Hr'. simplify_eq.
  assert (Hnew : photo_id (Nudify_add f w).1 (length (store w)) = Some (md5 f)).
  { rewrite (static_photo_id _ _ (add_static f w)). unfold photo_id.
    rewrite Hs, lookup_app_r, Nat.sub_diag by lia. simpl. by rewrite Hid. }
  assert (Htail : ∀ l, l ∈ take n (photos w) → l ∈ photos w)
    by (intros l; apply subseteq_take).
  split; rewrite Hp.
  - constructor.
    + rewrite add_store_length, Hs, length_app. simpl. lia.
    + apply Forall_forall. intros l Hin.
      pose proof (proj1 (Forall_forall _ _) Hval l (Htail l Hin)). simpl in *. lia.
  - rewrite fmap_cons. apply NoDup_cons. split.
    + rewrite Hnew. intros Hin. apply list_elem_of_fmap in Hin as (l & Hl & Hin).
      apply getPhoto_None in Hg.
      destruct (Photo_new_frame f w) as (Hpw & _). rewrite Hpw in Hg.
      apply (proj1 (Forall_forall _ _) Hg l (Htail l Hin)).
      rewrite <- (static_photo_id _ _ (add_static f w)). congruence.
    + erewrite (list_fmap_ext _ (photo_id w)).
      * rewrite fmap_take. eapply sublist_NoDup; [exact Hnd|apply sublist_take].
      * intros i x Hx. apply Hids, Htail. by eapply list_elem_of_lookup_2.
Qed.

Lemma add_then_found f w :
  Photo__validate f = None →
  Nudify_getPhoto (md5 f) (Nudify_add f w).1 ≠ None.
Proof.
  intros Hv.
  destruct (Photo_new_valid f w Hv) as (p & Hr & Hs & Hid & _).
  destruct (Nudify_getPhoto (md5 f) (Photo_new f w).1) eqn:Hg.
  - rewrite add_skips by (right; congruence). congruence.
  - destruct (add_inserts_take f w _ Hr Hg) as [n Hp].
    apply (getPhoto_found _ _ (length (store w))).
    + rewrite Hp. apply list_elem_of_here.
    + rewrite (static_photo_id _ _ (add_static f w)). unfold photo_id.
      rewrite Hs, lookup_app_r, Nat.sub_diag by lia. simpl. by rewrite Hid.
Qed.

Lemma one_entry {A B} `{EqDecision B} (g : A → B) (v : B) (xs : list A) x :
  NoDup (g <$> xs) → x ∈ xs → g x = v →
  length (filter (λ y, g y = v) xs) = 1.
Proof.
  induction xs as [|y ys IH]; intros Hnd Hin Hx.
  - by apply elem_of_nil in Hin.
  - rewrite fmap_cons in Hnd. apply NoDup_cons in Hnd as [Hy Hnd].
    destruct (decide (g y = v)) as [Hgy|Hgy].
    + rewrite filter_cons_True by done. simpl. f_equal.
      destruct (filter (λ y0, g y0 = v) ys) as [|z zs] eqn:E; [done|].
      assert (Hz : z ∈ filter (λ y0, g y0 = v) ys)
        by (rewrite E; apply list_elem_of_here).
      apply list_elem_of_filter in Hz as [Hgz Hz]. exfalso. apply Hy.
      rewrite Hgy, <- Hgz. by apply list_elem_of_fmap_2.
    + rewrite filter_cons_False by done.
      apply elem_of_cons in Hin as [->|Hin]; [done|]. by apply IH.
Qed.

Lemma add_returns f w : Photo__validate f = None → (Nudify_add f w).2 = None.
Proof.
  intros Hv. destruct (Photo_new_valid f w Hv) as (p & Hr & _).
  unfold Nudify_add. destruct (Photo_new f w) as [w1 [e|l]]; [discriminate|].
  destruct (Nudify_getPhoto (md5 f) w1); [done|]. by repeat case_decide.
Qed.

(** C7.  When the registry already holds a photo whose id is the hash of the
    file, [add] inserts nothing, emits no update and queues nothing (and
    returns without an exception when the file is a valid photo); hence
    adding the same valid file twice to a registry in order leaves exactly
    one entry with that id. *)
Theorem add_same_file_once (f : File) (w : World) :
  (Nudify_getPhoto (md5 f) w ≠ None →
     photos (Nudify_add f w).1 = photos w ∧
     log (Nudify_add f w).1 = log w ∧
     gqueue (Nudify_add f w).1 = gqueue w ∧
     store w `prefix_of` store (Nudify_add f w).1 ∧
     (Photo__validate f = None → (Nudify_add f w).2 = None)) ∧
  (registry_ok w → Photo__validate f = None →
     photos (Nudify_add f (Nudify_add f w).1).1 = photos (Nudify_add f w).1 ∧
     length (entries_with_id (md5 f) (Nudify_add f (Nudify_add f w).1).1) = 1).
Proof.
  split.
  - intros Hg. pose proof (add_found_noop f w Hg) as E. rewrite E.
    destruct (Photo_new_frame f w) as (Hp & Hl & Hq & _).
    repeat split; try done; [apply Photo_new_prefix|].
    apply add_returns.
  - intros Hok Hv.
    set (w1 := (Nudify_add f w).1).
    pose proof (add_then_found f w Hv) as Hfound. fold w1 in Hfound.
    pose proof (add_registry_ok f w Hok) as Hok1. fold w1 in Hok1.
    pose proof (add_registry_ok f w1 Hok1) as [Hval2 Hnd2].
    assert (Hp : photos (Nudify_add f w1).1 = photos w1).
    { rewrite (add_found_noop f w1 Hfound).
      by destruct (Photo_new_frame f w1) as (-> & _). }
    split; [done|].
    destruct (Nudify_getPhoto (md5 f) w1) as [l|] eqn:Hg; [|done].
    apply getPhoto_Some in Hg as [Hin Hid].
    unfold entries_with_id.
    apply (one_entry _ _ _ l); [done | by rewrite Hp |].
    rewrite add_photo_id; [done|]. by eapply photo_id_Some_lt.
Qed.

Lemma add_same_file_once_witness :
  log (Nudify_add (jpeg "a.jpg" "aaa") one_waiting).1 = log one_waiting ∧
  photos (Nudify_add (jpeg "a.jpg" "aaa") one_waiting).1 = [0] ∧
  length (entries_with_id "aaa"
            (Nudify_add (jpeg "a.jpg" "aaa") one_waiting).1) = 1.
Proof.
  destruct (add_same_file_once (jpeg "a.jpg" "aaa") one_waiting) as [H1 _].
  destruct (add_same_file_once (jpeg "a.jpg" "aaa") initial_world) as [_ H2].
  destruct H1 as (_ & Hl & _); [by vm_compute|].
  destruct H2 as [Hp Hn]; [split; [constructor|constructor] | reflexivity |].
  split; [exact Hl|]. split; [|exact Hn].
  etransitivity; [exact Hp | reflexivity].
Defined.

(** ** The end of a cycle: [_onFinish] and [cancel] *)

Lemma lookup_on_photo l f w p :
  store w !! l = Some p → store (on_photo l f w) !! l = Some (f p).
Proof. intros H. simpl. by rewrite list_lookup_alter_eq, H. Qed.

Lemma lookup_on_photo_ne l l' f w :
  l ≠ l' → store (on_photo l f w) !! l' = store w !! l'.
Proof. intros H. simpl. by rewrite list_lookup_alter_ne. Qed.

Lemma with_suspended_id p : suspended p = 0 → with_suspended 0 p = p.
Proof. destruct p; simpl; intros ->; reflexivity. Qed.

Lemma onFinish_spec l st w p :
  store w !! l = Some p →
  store (Photo__onFinish l st w) !! l
    = Some (with_suspended 0 (with_timer TimerStopped (with_status st p))) ∧
  log (Photo__onFinish l st w)
    = log w ++ [Update; Emit l "finish"] ++ notification_for w p.
Proof.
  intros Hl. unfold Photo__onFinish.
  set (w2 := on_photo l (with_timer TimerStopped) (Photo_set_status l st w)).
  assert (H2 : store w2 !! l = Some (with_timer TimerStopped (with_status st p))).
  { subst w2. apply lookup_on_photo. unfold Photo_set_status, Nudify_emitUpdate.
    simpl. by rewrite list_lookup_alter_eq, Hl. }
  assert (L2 : log w2 = log w ++ [Update]) by done.
  assert (E2 : env w2 = env w ∧ settings w2 = settings w) by done.
  clearbody w2.
  set (q := with_timer TimerStopped (with_status st p)) in *.
  assert (H3 : store (Photo_emit_finish l w2) !! l = Some (with_suspended 0 q)
               ∧ log (Photo_emit_finish l w2) = log w2 ++ [Emit l "finish"]
               ∧ env (Photo_emit_finish l w2) = env w2
               ∧ settings (Photo_emit_finish l w2) = settings w2).
  { unfold Photo_emit_finish. cbn [store emit]. rewrite H2.
    destruct (decide (suspended q = 0)) as [Hz|Hz].
    - rewrite with_suspended_id by done. simpl. by rewrite H2.
    - case_decide; simpl; by rewrite list_lookup_alter_eq, H2. }
  destruct H3 as (H3 & L3 & E3 & S3). destruct E2 as [E2 S2].
  unfold Photo__sendNotification, notification_for. rewrite H3, E3, S3, E2, S2.
  split.
  - by repeat case_match.
  - repeat case_match; simpl; rewrite ?L3, ?L2, <- ?(assoc_L (++)); simpl;
      try done; by rewrite ?app_nil_r.
Qed.

Lemma notification_for_frame w w' p p' :
  frame w w' → static p' = static p →
  notification_for w' p' = notification_for w p.
Proof.
  intros (Hs & He & _) Hst. unfold notification_for. rewrite Hs, He.
  assert (file p' = file p) as -> by (unfold static in Hst; congruence).
  done.
Qed.

Lemma frame_log w w' : frame w w' → ∃ evs, log w' = log w ++ evs.
Proof. by intros (_ & _ & _ & _ & _ & ?). Qed.

Lemma cancel_spec l st w p :
  store w !! l = Some p →
  ∃ p' evs,
    store (Photo_cancel l st w) !! l = Some p' ∧ static p' = static p ∧
    status p' = st ∧ timer p' = TimerStopped ∧ suspended p' = 0 ∧
    log (Photo_cancel l st w)
      = log w ++ evs ++ [Update; Emit l "finish"] ++ notification_for w p.
Proof.
  intros Hl. unfold Photo_cancel.
  set (w1 := foldl _ w _).
  assert (F : frame w w1)
    by (apply frame_foldl; intros; apply frame_cancelRun).
  clearbody w1.
  destruct (frame_lookup _ _ _ _ F Hl) as (p1 & H1 & S1).
  destruct (frame_log _ _ F) as [evs L1].
  destruct (onFinish_spec l st w1 p1 H1) as [Hs Hlog].
  eexists _, evs. split; [exact Hs|].
  split; [by rewrite <- S1|].
  split_and!; try done.
  rewrite Hlog, L1, (notification_for_frame w w1 p p1 F S1).
  by rewrite <- (assoc_L (++)).
Qed.

Lemma removeFromQueue_spec l w p :
  store w !! l = Some p →
  ∃ p' evs,
    store (Nudify_removeFromQueue l w) !! l = Some p' ∧ static p' = static p ∧
    status p' = "pending" ∧ timer p' = TimerStopped ∧ suspended p' = 0 ∧
    log (Nudify_removeFromQueue l w)
      = log w ++ evs ++ [Update; Emit l "finish"] ++ notification_for w p.
Proof.
  intros Hl. unfold Nudify_removeFromQueue.
  set (w2 := with_gqueue _ _).
  assert (F : frame w w2) by (subst w2; repeat case_match; frame_auto).
  clearbody w2.
  destruct (frame_lookup _ _ _ _ F Hl) as (p2 & H2 & S2).
  destruct (frame_log _ _ F) as [evs0 L2].
  destruct (cancel_spec l "pending" w2 p2 H2)
    as (p' & evs & Hs & Hst & Hp & Ht & Hsu & Hlog).
  exists p', (evs0 ++ evs). split_and!; try done; [congruence|].
  rewrite Hlog, L2, (notification_for_frame w w2 p p2 F S2).
  by rewrite <- !(assoc_L (++)).
Qed.

(** ** C9: every cancellation runs the finish path *)

(** C9.  For every photo and every target status, [cancel(status)] sets
    that status, stops the timer, emits the photo's 'finish' event, which
    lets every suspended [start()] go on, and then runs
    [_sendNotification]; so does [removeFromQueue], with target "pending";
    and unless a focused window exists or the preference is off, that is a
    notification that the photo "has finished". *)
Theorem cancel_runs_finish_path (l : loc) (st : string) (w : World) (p : Photo) :
  store w !! l = Some p →
  (∃ p' evs,
     store (Photo_cancel l st w) !! l = Some p' ∧
     status p' = st ∧ timer p' = TimerStopped ∧ suspended p' = 0 ∧
     log (Photo_cancel l st w)
       = log w ++ evs ++ [Update; Emit l "finish"] ++ notification_for w p) ∧
  (∃ p' evs,
     store (Nudify_removeFromQueue l w) !! l = Some p' ∧
     status p' = "pending" ∧
     log (Nudify_removeFromQueue l w)
       = log w ++ evs ++ [Update; Emit l "finish"] ++ notification_for w p) ∧
  (activeWindow (env w) ≠ Some true → allRuns (settings w) = true →
   notification_for w p
     = [Notification ("📷 " +:+ fullname (file p) +:+ " has finished.")
                     "The photo has completed the transformation process."]).
Proof.
  intros Hl. split_and!.
  - destruct (cancel_spec l st w p Hl) as (p' & evs & ? & ? & ? & ? & ? & ?).
    exists p', evs. by split_and!.
  - destruct (removeFromQueue_spec l w p Hl)
      as (p' & evs & ? & ? & ? & ? & ? & ?).
    exists p', evs. by split_and!.
  - intros Hw Ha. unfold notification_for. rewrite Ha.
    destruct (activeWindow (env w)) as [[]|]; done.
Qed.

Lemma cancel_runs_finish_path_witness :
  status <$> store one_waiting !! 0 = Some "waiting" ∧
  ∃ evs,
    log (Nudify_removeFromQueue 0 one_waiting)
      = log one_waiting ++ evs ++
        [Update; Emit 0 "finish";
         Notification "📷 a.jpg has finished."
                      "The photo has completed the transformation process."].
Proof.
  split; [reflexivity|].
  destruct (cancel_runs_finish_path 0 "pending" one_waiting _ eq_refl)
    as (_ & (p' & evs & _ & _ & Hlog) & Hn).
  exists evs. rewrite Hlog, Hn; [reflexivity | discriminate | reflexivity].
Defined.

(** ** C3: the two targets of a cancellation *)

Lemma remove_unfold l w :
  Nudify_remove l w
  = Nudify_emitUpdate
      (with_photos
         (filter (λ t, photo_id (Photo_cancel l "finished" w) t
                       ≠ photo_id (Photo_cancel l "finished" w) l)
                 (photos (Photo_cancel l "finished" w)))
         (Photo_cancel l "finished" w)).
Proof. reflexivity. Qed.

Lemma store_emitUpdate_with_photos ps w :
  store (Nudify_emitUpdate (with_photos ps w)) = store w.
Proof. reflexivity. Qed.

Lemma photos_emitUpdate_with_photos ps w :
  photos (Nudify_emitUpdate (with_photos ps w)) = ps.
Proof. reflexivity. Qed.

Lemma remove_store l w :
  store (Nudify_remove l w) = store (Photo_cancel l "finished" w).
Proof. by rewrite remove_unfold, store_emitUpdate_with_photos. Qed.

Lemma remove_photos l w :
  photos (Nudify_remove l w)
  = filter (λ t, photo_id (Photo_cancel l "finished" w) t
                 ≠ photo_id (Photo_cancel l "finished" w) l)
           (photos (Photo_cancel l "finished" w)).
Proof. by rewrite remove_unfold, photos_emitUpdate_with_photos. Qed.

Lemma photo_id_remove l w t :
  photo_id (Nudify_remove l w) t = photo_id (Photo_cancel l "finished" w) t.
Proof. unfold photo_id. by rewrite remove_store. Qed.

(** C3.  For every photo, in particular one that is "waiting" or "running",
    [removeFromQueue] leaves it with status "pending", and [remove] leaves it
    with status "finished" and takes every entry with its id out of the
    registry. *)
Theorem cancellation_targets (l : loc) (w : World) (p : Photo) :
  store w !! l = Some p →
  status <$> store (Nudify_removeFromQueue l w) !! l = Some "pending" ∧
  status <$> store (Nudify_remove l w) !! l = Some "finished" ∧
  Forall (λ t, photo_id (Nudify_remove l w) t ≠ Some (id p))
         (photos (Nudify_remove l w)).
Proof.
  intros Hl. split_and!.
  - destruct (removeFromQueue_spec l w p Hl) as (p' & evs & -> & _ & <- & _).
    done.
  - rewrite remove_store.
    destruct (cancel_spec l "finished" w p Hl) as (p' & evs & -> & _ & <- & _).
    done.
  - assert (Hid : photo_id (Photo_cancel l "finished" w) l = Some (id p)).
    { rewrite (frame_photo_id _ _ l (frame_cancel l "finished" w)).
      unfold photo_id. by rewrite Hl. }
    rewrite remove_photos. apply Forall_forall. intros t Ht.
    apply list_elem_of_filter in Ht as [Ht _].
    rewrite photo_id_remove. congruence.
Qed.

Lemma cancellation_targets_witness :
  status <$> store one_waiting !! 0 = Some "waiting" ∧
  status <$> store (Nudify_removeFromQueue 0 one_waiting) !! 0 = Some "pending" ∧
  status <$> store (Nudify_remove 0 one_waiting) !! 0 = Some "finished" ∧
  status <$> store one_running !! 0 = Some "running" ∧
  status <$> store (Nudify_removeFromQueue 0 one_running) !! 0 = Some "pending" ∧
  status <$> store (Nudify_remove 0 one_running) !! 0 = Some "finished".
Proof.
  destruct (cancellation_targets 0 one_waiting _ eq_refl) as (H1 & H2 & _).
  destruct (cancellation_targets 0 one_running _ eq_refl) as (H3 & H4 & _).
  split_and!; first [ reflexivity | assumption ].
Defined.

(** ** The queue of a photo, one task after the other *)

Lemma queue_exec_app l cs1 cs2 w :
  queue_exec l (cs1 ++ cs2) w = queue_exec l cs1 w ≫= queue_exec l cs2.
Proof.
  revert w. induction cs1 as [|c cs1 IH]; intros w; simpl; [done|].
  destruct (queue_step l c w) as [w'|]; simpl; [apply IH | done].
Qed.

Lemma getRunById_on_run rid rid' f p :
  getRunById (on_run rid f p) rid'
  = if decide (rid = rid') then f <$> getRunById p rid' else getRunById p rid'.
Proof.
  unfold getRunById, on_run.
  destruct (1 <=? rid)%Z eqn:E1, (1 <=? rid')%Z eqn:E2; simpl;
    try (case_decide; [subst; congruence | done]); try by case_decide.
  case_decide as Heq.
  - subst. by rewrite list_lookup_alter_eq.
  - rewrite list_lookup_alter_ne; [done|]. lia.
Qed.

Lemma getRunById_with_queue q p rid :
  getRunById (with_queue q p) rid = getRunById p rid.
Proof. done. Qed.

Lemma on_run_on_run rid f g p :
  on_run rid f (on_run rid g p) = on_run rid (f ∘ g) p.
Proof.
  unfold on_run. destruct (1 <=? rid)%Z; [|done].
  destruct p; unfold with_runs; simpl. f_equal. apply list_alter_alter_eq.
Qed.

Lemma remove_id_singleton rid : remove_id rid [rid] = [].
Proof. unfold remove_id. by rewrite filter_cons_False, filter_nil by tauto. Qed.

(** Dispatch and completion of the oldest task of an idle queue. *)
Lemma queue_serve l w p rid ts o :
  store w !! l = Some p →
  q_tasks (queue p) = rid :: ts → q_workers (queue p) = [] →
  0 < concurrent (q_options (queue p)) →
  is_Some (getRunById p rid) →
  ∃ w',
    queue_exec l [Dispatch; Complete rid o] w = Some w' ∧ frame w w' ∧
    log w' = log w ++ RunStart l rid :: reported o ∧
    store w' !! l
      = Some (with_queue {| q_options := q_options (queue p); q_tasks := ts;
                            q_workers := []; q_active := true |}
                         (on_run rid (settle o) p)).
Proof.
  intros Hl Hts Hws Hc [r Hr].
  set (q1 := {| q_options := q_options (queue p); q_tasks := ts;
                q_workers := [rid]; q_active := true |}).
  set (q2 := {| q_options := q_options (queue p); q_tasks := ts;
                q_workers := []; q_active := true |}).
  assert (Honq1 : ∀ f (p0 : Photo), queue (on_run rid f p0) = queue p0).
  { intros f p0. unfold on_run. by destruct (1 <=? rid)%Z. }
  assert (Honq2 : ∀ f g (p0 : Photo),
            on_queue g (on_run rid f p0) = on_run rid f (on_queue g p0)).
  { intros f g p0. unfold on_run. by destruct (1 <=? rid)%Z. }
  (* dispatch *)
  destruct (queue_step l Dispatch w) as [w1|] eqn:S1; last first.
  { exfalso. revert S1. unfold queue_step. rewrite Hl. cbn [mbind option_bind].
    rewrite Hts, Hws. cbn [length]. by rewrite decide_True. }
  assert (F1 : frame w w1 ∧ log w1 = log w ++ [RunStart l rid] ∧
               store w1 !! l = Some (on_run rid PhotoRun_onStart (with_queue q1 p))).
  { revert S1. unfold queue_step. rewrite Hl. cbn [mbind option_bind].
    rewrite Hts, Hws. cbn [length]. rewrite decide_True by done.
    intros [= <-]. split_and!; [frame_auto | done |].
    unfold Photo_on_task_started. cbn [store emit].
    erewrite lookup_on_photo; [done|]. erewrite lookup_on_photo; [|exact Hl].
    unfold on_queue. by rewrite Hws. }
  destruct F1 as (F1 & L1 & H1).
  (* completion *)
  assert (H2 : ∀ w2, w2 = on_photo l (on_queue (λ q', with_workers
                                (remove_id rid (q_workers q')) q')) w1 →
            store w2 !! l = Some (with_queue q2 (on_run rid PhotoRun_onStart p))
            ∧ frame w w2 ∧ log w2 = log w ++ [RunStart l rid]).
  { intros w2 ->. split_and!.
    - erewrite lookup_on_photo; [|exact H1]. f_equal.
      rewrite Honq2. unfold on_queue, with_workers.
      cbn [queue with_queue q_workers q_tasks q_options q_active q1].
      rewrite remove_id_singleton. unfold on_run. by destruct (1 <=? rid)%Z.
    - eapply frame_trans; [exact F1|frame_auto].
    - done. }
  specialize (H2 _ eq_refl). destruct H2 as (H2 & F2 & L2).
  assert (Hr2 : getRunById (with_queue q2 (on_run rid PhotoRun_onStart p)) rid
                = Some (PhotoRun_onStart r)).
  { rewrite getRunById_with_queue, getRunById_on_run, decide_True by done.
    by rewrite Hr. }
  assert (Hfin : ∀ f, on_run rid f (with_queue q2 (on_run rid PhotoRun_onStart p))
                      = with_queue q2 (on_run rid (f ∘ PhotoRun_onStart) p)).
  { intros f. rewrite <- on_run_on_run. unfold on_run.
    by destruct (1 <=? rid)%Z. }
  assert (S2 : queue_step l (Complete rid o) w1
               = Some (match failure o with
                       | None => Photo_on_task_finish l rid
                       | Some e => Photo_on_task_failed l rid e
                       end (on_photo l (on_queue (λ q', with_workers
                                (remove_id rid (q_workers q')) q')) w1))).
  { unfold queue_step. rewrite H1. cbn [mbind option_bind].
    rewrite Honq1. cbn [queue with_queue q_workers q1].
    rewrite decide_True by apply list_elem_of_here. unfold failure.
    destruct o as [|e]; [done|]. by destruct (is_truthy e). }
  cbn [queue_exec]. rewrite S1. cbn [mbind option_bind].
  rewrite S2. cbn [mbind option_bind].
  eexists. split; [reflexivity|].
  set (w2 := on_photo l _ w1) in *. clearbody w2.
  unfold reported, settle. destruct (failure o) as [e|].
  - unfold Photo_on_task_failed. rewrite H2. cbn [mbind option_bind].
    rewrite Hr2. split_and!.
    + eapply frame_trans; [exact F2|]. case_decide; frame_auto.
    + repeat case_decide; try done;
        cbn [log on_photo with_store emit]; rewrite L2;
        rewrite <- ?(assoc_L (++)); simpl; by rewrite ?app_nil_r.
    + case_decide; cbn [store emit];
        (erewrite lookup_on_photo; [|exact H2]); by rewrite Hfin.
  - unfold Photo_on_task_finish. rewrite H2. cbn [mbind option_bind].
    rewrite Hr2. split_and!.
    + eapply frame_trans; [exact F2|frame_auto].
    + cbn [log on_photo with_store]. by rewrite L2.
    + erewrite lookup_on_photo; [|exact H2]. by rewrite Hfin.
Qed.

Lemma foldl_on_run_with_queue (g : Z → PhotoRun → PhotoRun) q p ids :
  foldl (λ p' rid, on_run rid (g rid) p') (with_queue q p) ids
  = with_queue q (foldl (λ p' rid, on_run rid (g rid) p') p ids).
Proof.
  revert p. induction ids as [|rid ids IH]; intros p; simpl; [done|].
  rewrite <- IH. f_equal. unfold on_run. by destruct (1 <=? rid)%Z.
Qed.

Lemma foldl_on_run_queue (g : Z → PhotoRun → PhotoRun) p ids :
  queue (foldl (λ p' rid, on_run rid (g rid) p') p ids) = queue p.
Proof.
  revert p. induction ids as [|rid ids IH]; intros p; simpl; [done|].
  rewrite IH. unfold on_run. by destruct (1 <=? rid)%Z.
Qed.

Lemma foldl_on_run_static (g : Z → PhotoRun → PhotoRun) p ids :
  static (foldl (λ p' rid, on_run rid (g rid) p') p ids) = static p.
Proof.
  revert p. induction ids as [|rid ids IH]; intros p; simpl; [done|].
  rewrite IH. apply on_run_static.
Qed.

Lemma is_Some_getRunById_on_run rid rid' f p :
  is_Some (getRunById p rid') → is_Some (getRunById (on_run rid f p) rid').
Proof.
  intros [r Hr]. rewrite getRunById_on_run, Hr. case_decide; simpl; eauto.
Qed.

(** All the tasks of an idle queue, one after the other. *)
Lemma queue_serve_all l out ids :
  ∀ w p,
    store w !! l = Some p →
    q_tasks (queue p) = ids → q_workers (queue p) = [] →
    0 < concurrent (q_options (queue p)) →
    Forall (λ rid, is_Some (getRunById p rid)) ids →
    ∃ w',
      queue_exec l (flat_map (λ rid, [Dispatch; Complete rid (out rid)]) ids) w
        = Some w' ∧
      frame w w' ∧
      log w' = log w ++ units_trace l out ids ∧
      store w' !! l
        = Some (with_queue
                  {| q_options := q_options (queue p); q_tasks := [];
                     q_workers := [];
                     q_active := if ids is [] then q_active (queue p)
                                 else true |}
                  (foldl (λ p' rid, on_run rid (settle (out rid)) p') p ids)).
Proof.
  induction ids as [|rid ts IH]; intros w p Hl Hts Hws Hc Hruns.
  - exists w. split_and!; [done | apply frame_refl | by rewrite app_nil_r |].
    rewrite Hl. f_equal. destruct p as [? ? ? [? ? ? ?] ? ? ? ? ?].
    simpl in *. by subst.
  - apply Forall_cons in Hruns as [Hr Hruns].
    destruct (queue_serve l w p rid ts (out rid) Hl Hts Hws Hc Hr)
      as (w1 & E1 & F1 & L1 & H1).
    set (p1 := with_queue _ _) in H1.
    destruct (IH w1 p1 H1 eq_refl eq_refl Hc) as (w' & E' & F' & L' & H').
    { eapply Forall_impl; [exact Hruns|]. intros rid' Hs. subst p1.
      rewrite getRunById_with_queue. by apply is_Some_getRunById_on_run. }
    exists w'. split_and!.
    + change (flat_map _ (rid :: ts))
        with ([Dispatch; Complete rid (out rid)]
              ++ flat_map (λ rid, [Dispatch; Complete rid (out rid)]) ts).
      by rewrite queue_exec_app, E1.
    + by eapply frame_trans.
    + rewrite L', L1. unfold units_trace. cbn [flat_map].
      by rewrite <- !(assoc_L (++)).
    + rewrite H'. f_equal. subst p1. cbn [foldl].
      rewrite foldl_on_run_with_queue. by destruct ts.
Qed.

Lemma getRunById_foldl_other (g : Z → PhotoRun → PhotoRun) ids rid :
  rid ∉ ids →
  ∀ p, getRunById (foldl (λ p' r, on_run r (g r) p') p ids) rid
       = getRunById p rid.
Proof.
  induction ids as [|a ts IH]; intros Hin p; [done|].
  apply not_elem_of_cons in Hin as [Hne Hin]. cbn [foldl].
  rewrite IH by done. rewrite getRunById_on_run. by rewrite decide_False.
Qed.

Lemma settled_runs out ids :
  NoDup ids →
  ∀ p, Forall (λ rid, is_Some (getRunById p rid)) ids →
       Forall (λ rid,
                 run_status <$>
                   getRunById (foldl (λ p' r, on_run r (settle (out r)) p') p ids)
                              rid
                 = Some (settled_status (out rid))) ids.
Proof.
  induction 1 as [|a ts Ha Hnd IH]; intros p Hruns; [constructor|].
  apply Forall_cons in Hruns as [[r Hr] Hruns]. cbn [foldl]. constructor.
  - rewrite getRunById_foldl_other by done.
    rewrite getRunById_on_run, decide_True, Hr by done.
    unfold settle, settled_status. by destruct (failure (out a)).
  - apply IH. eapply Forall_impl; [exact Hruns|].
    intros rid'. apply is_Some_getRunById_on_run.
Qed.

(** ** C4: a failing unit stops neither the units after it nor the finish *)

(** A rejection whose reason is the empty string is no failure for the
    queue: [cb('')] finishes the task as [cb()] does. *)
Lemma rejection_with_empty_reason l rid w :
  queue_step l (Complete rid (Rejected (ErrString EmptyString))) w
  = queue_step l (Complete rid Resolved) w.
Proof. reflexivity. Qed.

Lemma failure_Some o e :
  failure o = Some e ↔ o = Rejected e ∧ is_truthy e = true.
Proof.
  unfold failure. destruct o as [|e']; [split; [done|by intros [? _]]|].
  destruct (is_truthy e') eqn:Ht; split.
  - by intros [= ->].
  - by intros [[= ->] _].
  - done.
  - intros [[= ->] Ht']. congruence.
Qed.

(** C4.  The queue of a photo holds the runs [ids], each with some outcome:
    the promise of [run.start()] resolves, or it is rejected with any
    reason.  A unit fails when the queue gets a truthy reason from the
    callback of [_run]; a resolved unit, and one rejected with the empty
    string, is finished.  Then the queue serves every one of the units in
    order, so the units after a failing one are started like the others; a
    failing run goes through [onFail], and its error reaches
    [AppError.handle] unless it is the string 'cancelled'; and at the drain
    the photo becomes "finished", with its timer stopped and the finish
    event emitted. *)
Theorem failed_unit_is_isolated (l : loc) (out : Z → Outcome) (w : World)
    (p : Photo) :
  store w !! l = Some p →
  q_tasks (queue p) ≠ [] → q_workers (queue p) = [] →
  concurrent (q_options (queue p)) = 1 →
  Forall (λ rid, is_Some (getRunById p rid)) (q_tasks (queue p)) →
  ∃ w' p',
    queue_exec l (serial out (q_tasks (queue p))) w = Some w' ∧
    log w' = log w ++ units_trace l out (q_tasks (queue p))
                   ++ [Update; Emit l "finish"] ++ notification_for w p ∧
    store w' !! l = Some p' ∧
    status p' = "finished" ∧ timer p' = TimerStopped ∧
    q_tasks (queue p') = [] ∧ q_workers (queue p') = [] ∧
    (NoDup (q_tasks (queue p)) →
     Forall (λ rid, run_status <$> getRunById p' rid
                    = Some (settled_status (out rid)))
            (q_tasks (queue p))).
Proof.
  intros Hl Hne Hws Hc Hruns.
  destruct (queue_serve_all l out (q_tasks (queue p)) w p Hl eq_refl Hws
              ltac:(lia) Hruns) as (w1 & E1 & F1 & L1 & H1).
  set (ids := q_tasks (queue p)) in *.
  set (p1 := with_queue _ _) in H1.
  assert (Hact : q_active (queue p1) = true) by (subst p1; simpl; by destruct ids).
  set (w2 := on_photo l (on_queue (with_active false)) w1).
  assert (S2 : queue_step l Drain w1 = Some (Photo_on_drain l w2)).
  { unfold queue_step. rewrite H1. cbn [mbind option_bind]. by rewrite Hact. }
  assert (H2 : store w2 !! l = Some (on_queue (with_active false) p1))
    by (by apply lookup_on_photo).
  assert (F2 : frame w w2) by (eapply frame_trans; [exact F1|subst w2; frame_auto]).
  destruct (onFinish_spec l "finished" w2 _ H2) as [H3 L3].
  eexists _, _. split_and!.
  - unfold serial. rewrite queue_exec_app, E1. cbn [mbind option_bind queue_exec].
    rewrite S2. reflexivity.
  - unfold Photo_on_drain. rewrite L3.
    erewrite (notification_for_frame w w2 p); [|exact F2|].
    + change (log w2) with (log w1). rewrite L1.
      by rewrite <- !(assoc_L (++)).
    + rewrite <- (foldl_on_run_static (λ r, settle (out r)) p ids).
      pose proof (foldl_on_run_queue (λ r, settle (out r)) p ids) as Hq.
      subst p1. unfold static, on_queue. simpl. by rewrite Hq.
  - exact H3.
  - done.
  - done.
  - done.
  - done.
  - intros Hnd. pose proof (settled_runs out ids Hnd p Hruns) as Hs.
    eapply Forall_impl; [exact Hs|]. intros rid Hrid. exact Hrid.
Qed.

Lemma failed_unit_is_isolated_witness :
  ∃ w' p',
    queue_exec 0 (serial second_fails [1; 2; 3]%Z) three_runs = Some w' ∧
    log w' = log three_runs ++
             [RunStart 0 1; RunStart 0 2; Handle (ErrObject "transform failed");
              RunStart 0 3; Update; Emit 0 "finish";
              Notification "📷 b.jpg has finished."
                           "The photo has completed the transformation process."] ∧
    store w' !! 0 = Some p' ∧ status p' = "finished" ∧
    run_status <$> runs p' = [RunFinished; RunFailed; RunFailed].
Proof.
  destruct (failed_unit_is_isolated 0 second_fails three_runs _ eq_refl)
    as (w' & p' & E & L & H & Hs & _ & _ & _ & Hr).
  - discriminate.
  - reflexivity.
  - reflexivity.
  - repeat constructor; by eexists.
  - exists w', p'. split_and!; [exact E | exact L | exact H | exact Hs |].
    vm_compute in E. injection E as <-. vm_compute in H. by injection H as <-.
Defined.

(** ** The workers of the queue of a photo *)

Lemma queue_on_run rid f p : queue (on_run rid f p) = queue p.
Proof. unfold on_run. by destruct (1 <=? rid)%Z. Qed.

Lemma on_task_started_queue l rid w p :
  store w !! l = Some p →
  ∃ p', store (Photo_on_task_started l rid w) !! l = Some p' ∧
        queue p' = queue p.
Proof.
  intros Hl. eexists. split; [by apply lookup_on_photo|]. apply queue_on_run.
Qed.

Lemma on_task_finish_queue l rid w p :
  store w !! l = Some p →
  ∃ p', store (Photo_on_task_finish l rid w) !! l = Some p' ∧
        queue p' = queue p.
Proof.
  intros Hl. unfold Photo_on_task_finish. case_match.
  - eexists. split; [by apply lookup_on_photo|]. apply queue_on_run.
  - by exists p.
Qed.

Lemma on_task_failed_queue l rid e w p :
  store w !! l = Some p →
  ∃ p', store (Photo_on_task_failed l rid e w) !! l = Some p' ∧
        queue p' = queue p.
Proof.
  intros Hl. unfold Photo_on_task_failed. repeat case_match.
  1,2: eexists; split;
    [cbn [store emit]; by apply lookup_on_photo | apply queue_on_run].
  by exists p.
Qed.

Lemma on_drain_queue l w p :
  store w !! l = Some p →
  ∃ p', store (Photo_on_drain l w) !! l = Some p' ∧ queue p' = queue p.
Proof.
  intros Hl. destruct (onFinish_spec l "finished" w p Hl) as [H _].
  eexists. split; [exact H|done].
Qed.

Lemma length_remove_id rid ids : length (remove_id rid ids) ≤ length ids.
Proof. apply length_filter. Qed.

(** A step of the queue keeps its options, and never has more workers
    busy than the options allow. *)
Lemma queue_step_workers l c w w' p :
  queue_step l c w = Some w' → store w !! l = Some p →
  ∃ p', store w' !! l = Some p' ∧
        q_options (queue p') = q_options (queue p) ∧
        (length (q_workers (queue p)) ≤ concurrent (q_options (queue p)) →
         length (q_workers (queue p')) ≤ concurrent (q_options (queue p))).
Proof.
  intros Hstep Hl. unfold queue_step in Hstep. rewrite Hl in Hstep.
  cbn [mbind option_bind] in Hstep. destruct c as [|rid o|].
  - destruct (q_tasks (queue p)) as [|rid ts]; [discriminate|].
    case_decide as Hlt; [|discriminate]. injection Hstep as <-.
    cbn [store emit].
    edestruct on_task_started_queue as (p' & -> & Hq);
      [by apply lookup_on_photo|].
    eexists. split; [done|]. rewrite Hq. cbn.
    rewrite length_app. cbn. split; [done|lia].
  - case_decide; [|discriminate]. injection Hstep as <-.
    set (w1 := on_photo l _ w).
    assert (H1 : store w1 !! l
                 = Some (on_queue (λ q', with_workers
                                    (remove_id rid (q_workers q')) q') p))
      by (by apply lookup_on_photo).
    clearbody w1.
    destruct o as [|e]; [|destruct (is_truthy e)];
      [ edestruct on_task_finish_queue as (p' & -> & Hq); [exact H1|]
      | edestruct on_task_failed_queue as (p' & -> & Hq); [exact H1|]
      | edestruct on_task_finish_queue as (p' & -> & Hq); [exact H1|] ].
    all: eexists; split; [done|]; rewrite Hq; cbn; split; [done|];
      pose proof (length_remove_id rid (q_workers (queue p))); lia.
  - destruct (q_active (queue p) && _ && _); [|discriminate].
    injection Hstep as <-.
    edestruct on_drain_queue as (p' & -> & Hq); [by apply lookup_on_photo|].
    eexists. split; [done|]. rewrite Hq. cbn. split; [done|lia].
Qed.

Lemma queue_exec_workers l cs :
  ∀ w w' p,
    queue_exec l cs w = Some w' → store w !! l = Some p →
    length (q_workers (queue p)) ≤ concurrent (q_options (queue p)) →
    ∃ p', store w' !! l = Some p' ∧
          q_options (queue p') = q_options (queue p) ∧
          length (q_workers (queue p')) ≤ concurrent (q_options (queue p)).
Proof.
  induction cs as [|c cs IH]; intros w w' p Hexec Hl Hle; cbn in Hexec.
  - injection Hexec as <-. by exists p.
  - destruct (queue_step l c w) as [w1|] eqn:Hstep; [|discriminate].
    cbn in Hexec.
    destruct (queue_step_workers l c w w1 p Hstep Hl) as (p1 & H1 & Ho & Hw).
    destruct (IH w1 w' p1 Hexec H1) as (p' & H' & Ho' & Hw').
    { rewrite Ho. by apply Hw. }
    exists p'. split_and!; [done | congruence | by rewrite <- Ho].
Qed.

(** ** One run at work, whatever happens *)

Lemma ok_on_photo l f w :
  (∀ p, store w !! l = Some p → one_worker p → one_worker (f p)) →
  queues_ok w → queues_ok (on_photo l f w).
Proof. intros Hf Hok. by apply Forall_alter. Qed.

Lemma ok_emit e w : queues_ok w → queues_ok (emit e w).
Proof. done. Qed.

Lemma ok_with_gqueue g w : queues_ok w → queues_ok (with_gqueue g w).
Proof. done. Qed.

(** The updates of a photo that keep its queue or only take work away. *)
Ltac ok_fun :=
  let p := fresh "p" in
  let Hc := fresh "Hc" in
  let Hw := fresh "Hw" in
  intros p _ [Hc Hw]; unfold one_worker in *;
  rewrite ?queue_on_run; unfold on_queue, Queue_push;
  repeat case_decide; simpl;
  (split; [done|]);
  try (etransitivity; [apply length_remove_id|]); done.

Lemma ok_set_status l s w : queues_ok w → queues_ok (Photo_set_status l s w).
Proof. intros. apply ok_emit, ok_on_photo; [ok_fun|done]. Qed.

Lemma ok_sendNotification l w :
  queues_ok w → queues_ok (Photo__sendNotification l w).
Proof. intros. unfold Photo__sendNotification. by repeat case_match. Qed.

Lemma ok_emit_finish l w : queues_ok w → queues_ok (Photo_emit_finish l w).
Proof.
  intros Hok. unfold Photo_emit_finish. repeat case_match; try done.
  - apply ok_with_gqueue, ok_on_photo; [ok_fun|done].
  - apply ok_on_photo; [ok_fun|done].
Qed.

Lemma ok_onFinish l s w : queues_ok w → queues_ok (Photo__onFinish l s w).
Proof.
  intros Hok. unfold Photo__onFinish.
  apply ok_sendNotification, ok_emit_finish, ok_on_photo; [ok_fun|].
  by apply ok_set_status.
Qed.

Lemma ok_onStart l w : queues_ok w → queues_ok (Photo__onStart l w).
Proof.
  intros Hok. unfold Photo__onStart.
  apply ok_emit, ok_on_photo; [ok_fun|]. by apply ok_set_status.
Qed.

Lemma ok_reset l w : queues_ok w → queues_ok (Photo_reset l w).
Proof.
  intros Hok. unfold Photo_reset.
  apply ok_on_photo; [ok_fun|]. apply ok_on_photo; [ok_fun|].
  by apply ok_set_status.
Qed.

Lemma ok_on_task_started l rid w :
  queues_ok w → queues_ok (Photo_on_task_started l rid w).
Proof. intros. apply ok_on_photo; [ok_fun|done]. Qed.

Lemma ok_on_task_finish l rid w :
  queues_ok w → queues_ok (Photo_on_task_finish l rid w).
Proof.
  intros. unfold Photo_on_task_finish. case_match; [|done].
  apply ok_on_photo; [ok_fun|done].
Qed.

Lemma ok_on_task_failed l rid e w :
  queues_ok w → queues_ok (Photo_on_task_failed l rid e w).
Proof.
  intros. unfold Photo_on_task_failed. repeat case_match; try done.
  - apply ok_emit, ok_on_photo; [ok_fun|done].
  - apply ok_on_photo; [ok_fun|done].
Qed.

Lemma ok_cancelRun l rid w : queues_ok w → queues_ok (Photo_cancelRun l rid w).
Proof.
  intros Hok. unfold Photo_cancelRun. case_match; [|done].
  apply ok_on_photo; [ok_fun|]. case_decide; [|done].
  apply ok_on_task_failed, ok_emit, ok_on_photo; [ok_fun|done].
Qed.

Lemma ok_foldl {A} (f : World → A → World) (xs : list A) w :
  (∀ w' x, queues_ok w' → queues_ok (f w' x)) →
  queues_ok w → queues_ok (foldl f w xs).
Proof.
  intros Hf. revert w. induction xs as [|x xs IH]; intros w Hok; [done|].
  cbn [foldl]. by apply IH, Hf.
Qed.

Lemma ok_cancel l s w : queues_ok w → queues_ok (Photo_cancel l s w).
Proof.
  intros Hok. unfold Photo_cancel. apply ok_onFinish, ok_foldl; [|done].
  intros. by apply ok_cancelRun.
Qed.

Lemma ok_rerun l rid w : queues_ok w → queues_ok (Photo_rerun l rid w).
Proof.
  intros Hok. unfold Photo_rerun.
  apply ok_onStart, ok_on_photo; [ok_fun|]. apply ok_on_photo; [ok_fun|done].
Qed.

Lemma ok_addToQueue l w : queues_ok w → queues_ok (Nudify_addToQueue l w).
Proof. intros. unfold Nudify_addToQueue. by apply ok_set_status, ok_with_gqueue. Qed.

Lemma ok_removeFromQueue l w :
  queues_ok w → queues_ok (Nudify_removeFromQueue l w).
Proof.
  intros Hok. unfold Nudify_removeFromQueue.
  apply ok_cancel, ok_with_gqueue. repeat case_match; try done.
  by apply ok_with_gqueue, ok_cancel.
Qed.

Lemma ok_start_loop l n : ∀ it w, queues_ok w → queues_ok (start_loop n it l w).
Proof.
  induction n as [|n IH]; intros it w Hok; cbn [start_loop]; [done|].
  apply IH. apply ok_on_photo; [ok_fun|]. apply ok_on_photo; [ok_fun|done].
Qed.

Lemma ok_start l w : queues_ok w → queues_ok (Photo_start l w).1.
Proof.
  intros Hok. unfold Photo_start. repeat case_match; cbn [fst]; try done.
  all: first [ by apply ok_removeFromQueue
             | apply ok_on_photo; [ok_fun|];
               by apply ok_start_loop, ok_onStart, ok_reset ].
Qed.

Lemma ok_run w w' c : Nudify__run w = Some (w', c) → queues_ok w → queues_ok w'.
Proof.
  unfold Nudify__run. repeat case_match; try discriminate.
  all: intros [= <- <-] Hok.
  all: match goal with
       | H : Photo_start ?l ?w0 = (?w2, _) |- _ =>
           pose proof (ok_start l w0 Hok) as F; rewrite H in F; cbn [fst] in F
       end.
  all: first [ exact F | by apply ok_with_gqueue ].
Qed.

Lemma ok_queue_step l c w w' :
  queue_step l c w = Some w' → queues_ok w → queues_ok w'.
Proof.
  unfold queue_step. destruct (store w !! l) as [p|] eqn:Hl; [|discriminate].
  cbn [mbind option_bind]. intros Hstep Hok. destruct c as [|rid o|].
  - destruct (q_tasks (queue p)); [discriminate|].
    case_decide as Hlt; [|discriminate]. injection Hstep as <-.
    apply ok_emit, ok_on_task_started, ok_on_photo; [|done].
    intros p' Hp' [Hc Hw]. rewrite Hl in Hp'. injection Hp' as <-.
    unfold one_worker, on_queue. cbn. split; [done|].
    rewrite length_app. cbn. lia.
  - case_decide; [|discriminate]. injection Hstep as <-.
    destruct o as [|e]; [|destruct (is_truthy e)];
      [apply ok_on_task_finish | apply ok_on_task_failed
      | apply ok_on_task_finish];
      (apply ok_on_photo; [ok_fun|done]).
  - case_match; [|discriminate]. injection Hstep as <-.
    unfold Photo_on_drain. apply ok_onFinish, ok_on_photo; [ok_fun|done].
Qed.

Lemma ok_runAll st w : queues_ok w → queues_ok (Nudify_runAll st w).
Proof.
  intros Hok. unfold Nudify_runAll. apply ok_foldl; [|done].
  intros w' l Hok'. case_decide; [by apply ok_addToQueue|done].
Qed.

Lemma ok_remove l w : queues_ok w → queues_ok (Nudify_remove l w).
Proof.
  intros Hok. unfold queues_ok. rewrite remove_store. by apply ok_cancel.
Qed.

Lemma ok_new f w : queues_ok w → queues_ok (Photo_new f w).1.
Proof.
  intros Hok. unfold Photo_new. destruct (Js.clone _ _) as [h prefs].
  destruct (Photo__validate f); [done|]. cbn [fst].
  apply Forall_app. split; [done|]. apply Forall_singleton. split; cbn; lia.
Qed.

Lemma ok_add f w : queues_ok w → queues_ok (Nudify_add f w).1.
Proof.
  intros Hok. pose proof (ok_new f w Hok) as Hnew. unfold Nudify_add.
  destruct (Photo_new f w) as [w1 [e|l]]; [done|]. cbn [fst] in Hnew.
  destruct (Nudify_getPhoto (md5 f) w1); [done|].
  repeat case_decide; cbn [fst]; try done; by apply ok_addToQueue.
Qed.

(** No action puts a second run of a photo to work. *)
Lemma act_queues_ok a w : queues_ok w → queues_ok (act w a).
Proof.
  intros Hok. destruct a as [f|l|l|l|st| |l st|l rid|l c]; cbn [act].
  - by apply ok_add.
  - by apply ok_addToQueue.
  - by apply ok_removeFromQueue.
  - by apply ok_remove.
  - by apply ok_runAll.
  - destruct (Nudify__run w) as [[w' c]|] eqn:E; [|done].
    cbn. by eapply ok_run.
  - by apply ok_cancel.
  - by apply ok_rerun.
  - destruct (queue_step l c w) as [w'|] eqn:E; [|done].
    cbn. by eapply ok_queue_step.
Qed.

Lemma acts_queues_ok acts : ∀ w, queues_ok w → queues_ok (foldl act w acts).
Proof.
  induction acts as [|a acts IH]; intros w Hok; [done|].
  cbn [foldl]. by apply IH, act_queues_ok.
Qed.

(** ** C8: what a start cycle creates *)

Lemma start_loop_spec l n :
  ∀ it w p,
    store w !! l = Some p →
    frame w (start_loop n it l w) ∧ log (start_loop n it l w) = log w ∧
    gqueue (start_loop n it l w) = gqueue w ∧
    store (start_loop n it l w) !! l
      = Some (with_queue
                (foldl (λ q i, Queue_push i q) (queue p) (seqZ it (Z.of_nat n)))
                (with_runs (runs p ++ (PhotoRun_new <$> seqZ it (Z.of_nat n))) p)).
Proof.
  induction n as [|n IH]; intros it w p Hl.
  - cbn. split_and!; [apply frame_refl | done | done |].
    rewrite Hl, app_nil_r. by destruct p.
  - cbn [start_loop].
    set (w2 := on_photo l (on_queue (Queue_push it)) _).
    assert (H2 : store w2 !! l
                 = Some (on_queue (Queue_push it)
                           (with_runs (runs p ++ [PhotoRun_new it]) p))).
    { subst w2. erewrite lookup_on_photo; [done|]. by erewrite lookup_on_photo. }
    assert (F2 : frame w w2) by (subst w2; frame_auto).
    assert (L2 : log w2 = log w ∧ gqueue w2 = gqueue w) by done.
    clearbody w2. destruct L2 as [L2 G2].
    destruct (IH (it + 1)%Z w2 _ H2) as (F & L & G & H).
    split_and!; [by eapply frame_trans | congruence | congruence |].
    rewrite H. f_equal.
    rewrite (seqZ_cons it (Z.of_nat (S n))) by lia.
    replace (Z.pred (Z.of_nat (S n))) with (Z.of_nat n) by lia.
    replace (Z.succ it) with (it + 1)%Z by lia.
    unfold on_queue. cbn. by rewrite <- (assoc_L (++)).
Qed.

Lemma elem_of_push_all ids :
  ∀ q i, i ∈ q_tasks q ∨ i ∈ ids →
         i ∈ q_tasks (foldl (λ q i, Queue_push i q) q ids).
Proof.
  induction ids as [|a ids IH]; intros q i [H|H]; cbn [foldl];
    [done | by apply elem_of_nil in H | |].
  - apply IH. left. unfold Queue_push. case_decide; [done|].
    cbn. apply elem_of_app. by left.
  - apply elem_of_cons in H as [->|H]; apply IH; [left|by right].
    unfold Queue_push. case_decide; [done|].
    cbn. apply elem_of_app. right. apply list_elem_of_here.
Qed.

Lemma push_all_fresh ids :
  NoDup ids →
  ∀ q, (∀ i, i ∈ ids → i ∉ q_tasks q) →
       q_tasks (foldl (λ q i, Queue_push i q) q ids) = q_tasks q ++ ids.
Proof.
  induction 1 as [|a ids Ha Hnd IH]; intros q Hq; cbn [foldl].
  - by rewrite app_nil_r.
  - rewrite IH.
    + unfold Queue_push. rewrite decide_False by (apply Hq, list_elem_of_here).
      cbn. by rewrite <- (assoc_L (++)).
    + intros i Hi. unfold Queue_push.
      rewrite decide_False by (apply Hq, list_elem_of_here). cbn.
      intros [Hin|Hin]%elem_of_app.
      * by apply (Hq i); [apply list_elem_of_further|].
      * apply list_elem_of_singleton in Hin as ->. done.
Qed.

Lemma push_all_queue ids :
  ∀ q, q_options (foldl (λ q i, Queue_push i q) q ids) = q_options q ∧
       q_workers (foldl (λ q i, Queue_push i q) q ids) = q_workers q.
Proof.
  induction ids as [|a ids IH]; intros q; cbn [foldl]; [done|].
  destruct (IH (Queue_push a q)) as [-> ->].
  unfold Queue_push. by case_decide.
Qed.

Lemma reset_lookup l w p :
  store w !! l = Some p →
  store (Photo_reset l w) !! l
    = Some (with_runs [] (with_timer TimerNew (with_status "pending" p))) ∧
  log (Photo_reset l w) = log w ++ [Update].
Proof.
  intros Hl. unfold Photo_reset, Photo_set_status, Nudify_emitUpdate.
  split; [|done].
  do 2 (erewrite lookup_on_photo; [done|]). cbn [store emit].
  by erewrite lookup_on_photo.
Qed.

Lemma onStart_lookup l w p :
  store w !! l = Some p →
  store (Photo__onStart l w) !! l
    = Some (with_timer TimerStarted (with_status "running" p)) ∧
  log (Photo__onStart l w) = log w ++ [Update; Emit l "start"].
Proof.
  intros Hl. unfold Photo__onStart, Photo_set_status, Nudify_emitUpdate.
  split.
  - cbn [store emit]. erewrite lookup_on_photo; [done|]. cbn [store emit].
    by erewrite lookup_on_photo.
  - cbn. by rewrite <- (assoc_L (++)).
Qed.

Lemma start_spec l w p N sm :
  store w !! l = Some p →
  Js.get_path (heap w) (preferences p) ["body"; "executions"]
    = Some (Js.VNum N) →
  Js.get_path (heap w) (preferences p) ["advanced"; "scaleMode"] = Some sm →
  (0 < N)%Z →
  (sm = Js.VStr "cropjs" → Photo_crop l w = None) →
  (Photo_start l w).2 = Suspended ∧
  frame w (Photo_start l w).1 ∧
  log (Photo_start l w).1 = log w ++ [Update; Update; Emit l "start"] ∧
  ∃ p',
    store (Photo_start l w).1 !! l = Some p' ∧
    runs p' = PhotoRun_new <$> seqZ 1 N ∧
    queue p' = foldl (λ q i, Queue_push i q) (queue p) (seqZ 1 N) ∧
    status p' = "running" ∧ timer p' = TimerStarted ∧
    suspended p' = S (suspended p).
Proof.
  intros Hl He Hs HN Hcrop. unfold Photo_start. rewrite Hl, He, Hs.
  rewrite decide_False by (intros [= ->]; lia). cbn [loop_bound].
  assert (Hc : (if decide (sm = Js.VStr "cropjs") then Photo_crop l w else None)
               = None) by (case_decide; [by apply Hcrop | done]).
  rewrite Hc. cbn [fst snd].
  destruct (reset_lookup l w p Hl) as [H1 L1].
  destruct (onStart_lookup l _ _ H1) as [H2 L2].
  destruct (start_loop_spec l (Z.to_nat N) 1%Z _ _ H2) as (F3 & L3 & _ & H3).
  rewrite Z2Nat.id in H3 by lia.
  split_and!; [done | | |].
  - eapply frame_trans; [|apply frame_on_photo; by intros []].
    eapply frame_trans; [|exact F3]. frame_auto.
  - cbn [log on_photo with_store]. rewrite L3, L2, L1.
    by rewrite <- (assoc_L (++)).
  - eexists. split; [erewrite lookup_on_photo; [done | exact H3]|].
    by split_and!.
Qed.

Lemma start_zero l w p sm :
  store w !! l = Some p →
  Js.get_path (heap w) (preferences p) ["body"; "executions"]
    = Some (Js.VNum 0) →
  Js.get_path (heap w) (preferences p) ["advanced"; "scaleMode"] = Some sm →
  Photo_start l w = (w, Returned).
Proof.
  intros Hl He Hs. unfold Photo_start. rewrite Hl, He, Hs.
  by rewrite decide_True.
Qed.

(** C8.  A photo whose configured execution count is the number [N]:
    when [N] is 0, [start()] returns at once and changes nothing, so no
    run exists and "running" is never observed; when [N > 0] and the crop
    step, if the scale mode asks for it, succeeds, [start()] makes the runs
    with the indices 1 to [N], in that order, puts each on the queue of the
    photo, and awaits the finish; and as that queue was set up with
    [concurrent: 1], it never has more than one run at work, whatever the
    queue does next, and whatever the user and the queues do next when
    that holds of every photo. *)
Theorem start_creates_units (l : loc) (w : World) (p : Photo) (N : Z)
    (sm : Js.value) :
  store w !! l = Some p →
  Js.get_path (heap w) (preferences p) ["body"; "executions"]
    = Some (Js.VNum N) →
  Js.get_path (heap w) (preferences p) ["advanced"; "scaleMode"] = Some sm →
  (N = 0%Z → Photo_start l w = (w, Returned)) ∧
  ((0 < N)%Z →
   (sm = Js.VStr "cropjs" → Photo_crop l w = None) →
   (∃ s, q_options (queue p) = q_options (Photo__setupQueue s)) →
   length (q_workers (queue p)) ≤ 1 →
   ∃ p',
     (Photo_start l w).2 = Suspended ∧
     store (Photo_start l w).1 !! l = Some p' ∧
     status p' = "running" ∧
     runs p' = PhotoRun_new <$> seqZ 1 N ∧
     run_id <$> runs p' = seqZ 1 N ∧
     (∀ i, (1 ≤ i ≤ N)%Z → i ∈ q_tasks (queue p')) ∧
     (q_tasks (queue p) = [] → q_tasks (queue p') = seqZ 1 N) ∧
     (∀ cs w'' p'',
        queue_exec l cs (Photo_start l w).1 = Some w'' →
        store w'' !! l = Some p'' →
        length (q_workers (queue p'')) ≤ 1) ∧
     (queues_ok w →
      ∀ acts, queues_ok (foldl act (Photo_start l w).1 acts))).
Proof.
  intros Hl He Hs. split.
  - intros ->. by eapply start_zero.
  - intros HN Hcrop [s Hopt] Hw.
    destruct (start_spec l w p N sm Hl He Hs HN Hcrop)
      as (Hr & F & L & p' & H' & Hruns & Hq & Hst & _).
    destruct (push_all_queue (seqZ 1 N) (queue p)) as [Ho' Hw'].
    rewrite <- Hq in Ho', Hw'.
    exists p'. split_and!; try done.
    + rewrite Hruns, <- list_fmap_compose. apply list_fmap_id.
    + intros i Hi. rewrite Hq. apply elem_of_push_all. right.
      apply list_elem_of_lookup. exists (Z.to_nat (i - 1)).
      apply lookup_seqZ. lia.
    + intros Hts. rewrite Hq, push_all_fresh; [by rewrite Hts| |].
      * apply NoDup_seqZ.
      * intros i _. rewrite Hts. apply not_elem_of_nil.
    + intros cs w'' p'' Hexec H''.
      destruct (queue_exec_workers l cs _ _ p' Hexec H')
        as (q & Hq' & _ & Hle).
      * rewrite Ho', Hw', Hopt. exact Hw.
      * rewrite H'' in Hq'. injection Hq' as <-.
        by rewrite Ho', Hopt in Hle.
    + intros Hok acts. by apply acts_queues_ok, ok_start.
Qed.

Lemma start_creates_units_witness :
  Photo_start 0 zero_waiting = (zero_waiting, Returned) ∧
  (∃ p',
     (Photo_start 0 three_waiting).2 = Suspended ∧
     store (Photo_start 0 three_waiting).1 !! 0 = Some p' ∧
     run_id <$> runs p' = [1; 2; 3]%Z ∧
     q_tasks (queue p') = [1; 2; 3]%Z) ∧
  queues_ok (foldl act (Photo_start 0 three_waiting).1
               [QueueStep 0 Dispatch; QueueStep 0 Dispatch; Rerun 0 3;
                QueueStep 0 (Complete 1 Resolved); QueueStep 0 Dispatch]).
Proof.
  destruct (start_creates_units 0 zero_waiting _ 0 (Js.VStr "auto-rescale")
              eq_refl eq_refl eq_refl) as [H0 _].
  destruct (start_creates_units 0 three_waiting _ 3 (Js.VStr "auto-rescale")
              eq_refl eq_refl eq_refl) as [_ H3].
  split; [by apply H0|].
  destruct H3 as (p' & Hr & H' & _ & _ & Hids & _ & Hts & _ & Hever).
  - reflexivity.
  - discriminate.
  - by exists initial_settings.
  - simpl. lia.
  - split.
    + exists p'. split_and!; [exact Hr | exact H' | exact Hids | by apply Hts].
    + apply Hever. apply Forall_singleton. split; simpl; lia.
Defined.

(** ** C6: the capacity of the registry, whatever happens *)

Lemma frame_start_loop l n : ∀ it w, frame w (start_loop n it l w).
Proof.
  induction n as [|n IH]; intros it w; cbn [start_loop]; [apply frame_refl|].
  eapply frame_trans; [|apply IH]. frame_auto.
Qed.

Lemma frame_start l w : frame w (Photo_start l w).1.
Proof.
  unfold Photo_start. repeat case_match; cbn [fst]; try apply frame_refl;
    try apply frame_removeFromQueue.
  all: eapply frame_trans; [|apply frame_on_photo; by intros []].
  all: eapply frame_trans; [|apply frame_start_loop]; frame_auto.
Qed.

Lemma frame_run w w' c : Nudify__run w = Some (w', c) → frame w w'.
Proof.
  unfold Nudify__run. repeat case_match; try discriminate.
  all: intros [= <- <-].
  all: match goal with
       | H : Photo_start ?l ?w0 = (?w2, _) |- _ =>
           pose proof (frame_start l w0) as F; rewrite H in F; cbn [fst] in F
       end.
  all: repeat (eapply frame_trans; [|first [ exact F | apply frame_with_gqueue ]]);
       try apply frame_with_gqueue; apply frame_refl.
Qed.

Lemma frame_queue_step l c w w' : queue_step l c w = Some w' → frame w w'.
Proof.
  unfold queue_step. destruct (store w !! l) as [p|]; [|discriminate].
  cbn [mbind option_bind]. destruct c as [|rid o|].
  - destruct (q_tasks (queue p)); [discriminate|].
    case_decide; [|discriminate]. intros [= <-]. frame_auto.
  - case_decide; [|discriminate]. intros [= <-].
    destruct o as [|e]; [|destruct (is_truthy e)]; frame_auto.
  - case_match; [|discriminate]. intros [= <-]. unfold Photo_on_drain.
    eapply frame_trans; [|apply frame_onFinish]. frame_auto.
Qed.

Lemma frame_runAll st w : frame w (Nudify_runAll st w).
Proof.
  unfold Nudify_runAll. apply frame_foldl. intros w' l.
  case_decide; frame_auto.
Qed.

Lemma frame_rerun l rid w : frame w (Photo_rerun l rid w).
Proof. unfold Photo_rerun. frame_auto. Qed.

(** No action takes the registry beyond its capacity. *)
Lemma act_capacity a w :
  (length (photos w) ≤ MAX_PHOTOS)%nat →
  (length (photos (act w a)) ≤ MAX_PHOTOS)%nat.
Proof.
  intros Hlen. destruct a as [f|l|l|l|st| |l st|l rid|l c]; cbn [act].
  - by apply add_capacity.
  - by rewrite (frame_photos _ _ (frame_addToQueue l w)).
  - by rewrite (frame_photos _ _ (frame_removeFromQueue l w)).
  - rewrite remove_photos. etransitivity; [apply length_filter|].
    by rewrite (frame_photos _ _ (frame_cancel l "finished" w)).
  - by rewrite (frame_photos _ _ (frame_runAll st w)).
  - destruct (Nudify__run w) as [[w' c]|] eqn:E; [|done].
    cbn. by rewrite (frame_photos _ _ (frame_run _ _ _ E)).
  - by rewrite (frame_photos _ _ (frame_cancel l st w)).
  - by rewrite (frame_photos _ _ (frame_rerun l rid w)).
  - destruct (queue_step l c w) as [w'|] eqn:E; [|done].
    cbn. by rewrite (frame_photos _ _ (frame_queue_step _ _ _ _ E)).
Qed.

(** C6.  From a registry of at most 1000 photos, an [add] leaves at most
    1000 photos, and so does every sequence of actions of the user and of
    the queues; and when [add] inserts the file, the new photo is the first
    entry and, if the registry was full, the last entry is gone. *)
Theorem registry_capacity (f : File) (acts : list Action) (w : World) :
  (length (photos w) ≤ MAX_PHOTOS)%nat →
  (length (photos (Nudify_add f w).1) ≤ MAX_PHOTOS)%nat ∧
  (length (photos (foldl act w acts)) ≤ MAX_PHOTOS)%nat ∧
  ∀ l, (Photo_new f w).2 = inr l →
       Nudify_getPhoto (md5 f) (Photo_new f w).1 = None →
       photos (Nudify_add f w).1 =
         l :: (if decide (length (photos w) = MAX_PHOTOS)
               then removelast (photos w) else photos w).
Proof.
  intros Hlen. split_and!.
  - by apply add_capacity.
  - revert w Hlen. induction acts as [|a acts IH]; intros w Hlen; [done|].
    cbn [foldl]. by apply IH, act_capacity.
  - intros l. by apply add_front.
Qed.

Lemma registry_capacity_witness :
  length (photos full_world) = 1000 ∧
  photos (Nudify_add (jpeg "new.jpg" "new") full_world).1
    = 1000 :: removelast (photos full_world) ∧
  length (photos (Nudify_add (jpeg "new.jpg" "new") full_world).1) ≤ 1000 ∧
  length (photos (foldl act full_world
                    [Add (jpeg "new.jpg" "new"); Run; Remove 7;
                     Add (jpeg "newer.jpg" "newer")])) ≤ 1000.
Proof.
  assert (Hfull : length (photos full_world) = 1000) by (by vm_compute).
  destruct (registry_capacity (jpeg "new.jpg" "new")
              [Add (jpeg "new.jpg" "new"); Run; Remove 7;
               Add (jpeg "newer.jpg" "newer")] full_world)
    as (Hadd & Hacts & Hfront).
  - rewrite Hfull. reflexivity.
  - split_and!; [exact Hfull | | exact Hadd | exact Hacts].
    rewrite (Hfront 1000); [| by vm_compute | by vm_compute].
    by rewrite decide_True by exact Hfull.
Defined.

(** ** C5: what the debounced update emits *)

Section DebounceFacts.

Import Debounce.
Local Open Scope Z_scope.

Lemma first_call t0 :
  in_burst [] t0 t0 false
    (debounced emitUpdate_wait emitUpdate_options t0
       (fire_timers emitUpdate_wait emitUpdate_options rounds t0 init)).
Proof.
  cbn. split_and!; try done.
  exists (t0 + 100). unfold emitUpdate_wait. split; [done|lia].
Qed.

Lemma timers_in_burst before t0 c again s t :
  in_burst before t0 c again s → c <= t < c + emitUpdate_wait →
  ∃ e',
    fire_timers emitUpdate_wait emitUpdate_options rounds t s
    = {| lastArgs := again; lastCallTime := Some c;
         lastInvokeTime := lastInvokeTime s; timerId := Some e';
         invocations := before ++ [t0] |} ∧
    t < e' <= c + emitUpdate_wait.
Proof.
  intros (Hc & Ha & Hi & e & He & Hec) Ht. unfold emitUpdate_wait in *.
  destruct s as [la lc li ti inv]. cbn in Hc, Ha, Hi, He. subst.
  unfold rounds, fire_timers, timerExpired, shouldInvoke, remainingWait.
  cbn -[Z.add Z.sub Z.leb Z.ltb].
  destruct (Z.leb_spec e t) as [Hle|Hgt]; [|exists e; split; [done|lia]].
  (* the timer fires before the request and is set again *)
  destruct (Z.leb_spec 100 (e - c)); [lia|].
  destruct (Z.ltb_spec (e - c) 0); [lia|].
  cbn -[Z.add Z.sub Z.leb Z.ltb].
  destruct (Z.leb_spec (e + (100 - (e - c))) t); [lia|].
  eexists. split; [reflexivity|]. lia.
Qed.

Lemma next_call before t0 c again s t :
  in_burst before t0 c again s → c <= t < c + emitUpdate_wait →
  in_burst before t0 t true
    (debounced emitUpdate_wait emitUpdate_options t
       (fire_timers emitUpdate_wait emitUpdate_options rounds t s)).
Proof.
  intros Hs Ht.
  destruct (timers_in_burst before t0 c again s t Hs Ht) as (e' & -> & He').
  unfold debounced. cbn. split_and!; try done. exists e'. split; [done|lia].
Qed.

(** The timers of a burst, once they have all fired. *)
Lemma timers_after_burst before t0 c again s t :
  in_burst before t0 c again s → c + emitUpdate_wait <= t →
  fire_timers emitUpdate_wait emitUpdate_options rounds t s
  = {| lastArgs := false; lastCallTime := Some c;
       lastInvokeTime := if again then c + emitUpdate_wait
                         else lastInvokeTime s;
       timerId := None;
       invocations := before ++ t0 ::
                        (if again then [c + emitUpdate_wait] else []) |}.
Proof.
  intros (Hc & Ha & Hi & e & He & Hec) Ht. unfold emitUpdate_wait in *.
  destruct s as [la lc li ti inv]. cbn in Hc, Ha, Hi, He. subst.
  unfold rounds, fire_timers, timerExpired, shouldInvoke, remainingWait,
    trailingEdge, invokeFunc.
  cbn -[Z.add Z.sub Z.leb Z.ltb].
  destruct (Z.leb_spec e t); [|lia].
  destruct (Z.leb_spec 100 (e - c)) as [Hle|Hlt].
  - assert (e = c + 100) as -> by lia.
    destruct again; cbn -[Z.add Z.sub Z.leb Z.ltb];
      by rewrite <- ?(assoc_L (++)).
  - destruct (Z.ltb_spec (e - c) 0); [lia|].
    cbn -[Z.add Z.sub Z.leb Z.ltb].
    replace (e + (100 - (e - c))) with (c + 100) by lia.
    destruct (Z.leb_spec (c + 100) t); [|lia].
    destruct (Z.leb_spec 100 (c + 100 - c)); [|lia].
    destruct again; cbn -[Z.add Z.sub Z.leb Z.ltb];
      by rewrite <- ?(assoc_L (++)).
Qed.

Lemma next_burst before t0 c again s t :
  in_burst before t0 c again s → c + emitUpdate_wait <= t →
  in_burst (before ++ burst_emissions emitUpdate_wait
                        (t0, if again then [c] else []))
           t t false
    (debounced emitUpdate_wait emitUpdate_options t
       (fire_timers emitUpdate_wait emitUpdate_options rounds t s)).
Proof.
  intros Hs Ht. rewrite (timers_after_burst before t0 c again s t Hs Ht).
  unfold emitUpdate_wait in *. unfold debounced, shouldInvoke, leadingEdge.
  cbn -[Z.add Z.sub Z.leb Z.ltb].
  destruct (Z.leb_spec 100 (t - c)); [|lia].
  cbn -[Z.add Z.sub Z.leb Z.ltb]. split_and!; try done.
  - unfold burst_emissions, burst_last. by destruct again.
  - exists (t + 100). unfold emitUpdate_wait. split; [done|lia].
Qed.

Lemma silence before t0 c again s :
  in_burst before t0 c again s →
  invocations (flush emitUpdate_wait emitUpdate_options rounds s)
  = before ++ t0 :: (if again then [c + emitUpdate_wait] else []).
Proof.
  intros (Hc & Ha & Hi & e & He & Hec). unfold emitUpdate_wait in *.
  destruct s as [la lc li ti inv]. cbn in Hc, Ha, Hi, He. subst.
  unfold rounds, flush, timerExpired, shouldInvoke, remainingWait, trailingEdge.
  cbn -[Z.add Z.sub Z.leb Z.ltb].
  destruct (Z.leb_spec 100 (e - c)) as [Hle|Hlt].
  - assert (e = c + 100) as -> by lia.
    destruct again; cbn -[Z.add Z.sub Z.leb Z.ltb];
      by rewrite <- ?(assoc_L (++)).
  - destruct (Z.ltb_spec (e - c) 0); [lia|].
    cbn -[Z.add Z.sub Z.leb Z.ltb].
    replace (e + (100 - (e - c))) with (c + 100) by lia.
    destruct (Z.leb_spec 100 (c + 100 - c)); [|lia].
    destruct again; cbn -[Z.add Z.sub Z.leb Z.ltb];
      by rewrite <- ?(assoc_L (++)).
Qed.

Lemma rest_of_burst before t0 rest :
  ∀ c again s,
    in_burst before t0 c again s → chained emitUpdate_wait c rest →
    in_burst before t0 (default c (last rest))
             (if rest is [] then again else true)
             (calls emitUpdate_wait emitUpdate_options rest s).
Proof.
  induction rest as [|t rest IH]; intros c again s Hs Hch; [done|].
  destruct Hch as [Ht Hch]. cbn [calls foldl].
  pose proof (next_call before t0 c again s t Hs Ht) as Hs'.
  specialize (IH t true _ Hs' Hch). unfold calls in IH.
  destruct rest as [|t' rest']; [exact IH|].
  change (last (t :: t' :: rest')) with (last (t' :: rest')).
  destruct (last (t' :: rest')) as [x|] eqn:E; [exact IH|].
  by apply last_None in E.
Qed.

Lemma within_window_chained first rest :
  within_window emitUpdate_wait first rest → chained emitUpdate_wait first rest.
Proof.
  intros [Hs Hw]. revert first Hs Hw.
  induction rest as [|t rest IH]; intros first Hs Hw; [done|].
  apply Sorted_inv in Hs as [Hs Hhd]. apply HdRel_inv in Hhd.
  apply Forall_cons in Hw as [Ht Hw]. split; [lia|].
  apply IH; [done|]. eapply Forall_impl; [exact Hw|]. cbn. intros; lia.
Qed.

Lemma calls_app ts1 ts2 s :
  calls emitUpdate_wait emitUpdate_options (ts1 ++ ts2) s
  = calls emitUpdate_wait emitUpdate_options ts2
      (calls emitUpdate_wait emitUpdate_options ts1 s).
Proof. apply foldl_app. Qed.

(** The bursts that follow a burst in progress. *)
Lemma later_bursts bs :
  ∀ before t0 c again s,
    in_burst before t0 c again s →
    separated emitUpdate_wait (Some c) bs →
    invocations
      (flush emitUpdate_wait emitUpdate_options rounds
         (calls emitUpdate_wait emitUpdate_options (flat_map burst_times bs) s))
    = before ++ burst_emissions emitUpdate_wait (t0, if again then [c] else [])
             ++ flat_map (burst_emissions emitUpdate_wait) bs.
Proof.
  induction bs as [|[first rest] bs IH]; intros before t0 c again s Hs Hsep.
  - cbn [flat_map calls foldl]. rewrite (silence _ _ _ _ _ Hs), app_nil_r.
    unfold burst_emissions, burst_last. by destruct again.
  - destruct Hsep as (Hgap & Hw & Hsep). cbn [fst snd] in *.
    cbn [flat_map]. unfold burst_times at 1. cbn [fst snd].
    rewrite calls_app.
    change (calls _ _ (first :: rest) s)
      with (calls emitUpdate_wait emitUpdate_options rest
              (debounced emitUpdate_wait emitUpdate_options first
                 (fire_timers emitUpdate_wait emitUpdate_options rounds first s))).
    pose proof (next_burst before t0 c again s first Hs (Hgap c eq_refl)) as H1.
    pose proof (rest_of_burst _ first rest first false _ H1
                  (within_window_chained _ _ Hw)) as H2.
    rewrite (IH _ _ _ _ _ H2 Hsep). rewrite <- !(assoc_L (++)).
    do 2 f_equal. unfold burst_emissions, burst_last. cbn [fst snd].
    by destruct rest.
Qed.

End DebounceFacts.

(** C5, as the code has it.  Update requests come in bursts, each within a
    window of 100 ms and each beginning at least 100 ms after the last
    request of the burst before.  Then every burst is answered by an
    emission of 'nudify.update' on its leading edge, at its first request;
    a burst of a single request by that emission alone; a burst of more
    requests by exactly one more emission, on the trailing edge, 100 ms
    after its last request. *)
Theorem update_burst_emissions (bs : list (Z * list Z)) :
  Debounce.separated 100 None bs →
  Debounce.nudify_update (flat_map Debounce.burst_times bs)
  = flat_map (Debounce.burst_emissions 100) bs.
Proof.
  destruct bs as [|[first rest] bs]; [done|].
  intros (_ & Hw & Hsep). cbn [fst snd] in *.
  unfold Debounce.nudify_update, Debounce.emissions.
  cbn [flat_map]. unfold Debounce.burst_times at 1. cbn [fst snd].
  rewrite calls_app.
  change (Debounce.calls _ _ (first :: rest) Debounce.init)
    with (Debounce.calls Debounce.emitUpdate_wait Debounce.emitUpdate_options
            rest
            (Debounce.debounced Debounce.emitUpdate_wait
               Debounce.emitUpdate_options first
               (Debounce.fire_timers Debounce.emitUpdate_wait
                  Debounce.emitUpdate_options Debounce.rounds first
                  Debounce.init))).
  pose proof (rest_of_burst [] first rest first false _ (first_call first)
                (within_window_chained _ _ Hw)) as H.
  rewrite (later_bursts bs _ _ _ _ _ H Hsep). cbn [app]. f_equal.
  unfold Debounce.burst_emissions, Debounce.burst_last. cbn [fst snd].
  by destruct rest.
Qed.

Lemma update_burst_emissions_witness :
  Debounce.nudify_update [0; 10; 50; 99; 300; 1000; 1050]%Z
  = [0; 199; 300; 1000; 1150]%Z.
Proof.
  apply (update_burst_emissions
           [(0, [10; 50; 99]); (300, []); (1000, [1050])]%Z).
  cbn. split_and!; try done; try (intros c [= <-]; lia);
    repeat constructor; lia.
Defined.

(** C5, as the claim has it, fails: two requests 10 ms apart are within one
    window, and 'nudify.update' is emitted twice, at 0 ms and at 110 ms. *)
Lemma update_burst_counterexample :
  Debounce.within_window 100 0 [10%Z] ∧
  Debounce.nudify_update [0; 10]%Z = [0; 110]%Z ∧
  ¬ (∃ t, Debounce.nudify_update [0; 10]%Z = [t]).
Proof.
  split_and!.
  - split; repeat constructor; lia.
  - reflexivity.
  - intros [t Ht]. vm_compute in Ht. discriminate.
Qed.

(** ** C2: which documents the upgrade brings to version 4 *)

Section UpgradeFacts.

Import SettingsService.

Lemma version_of_loadInitital sys : version_of (_loadInitital sys) = JNum 4.
Proof. reflexivity. Qed.

Lemma lookup_assign_eq fs k v : lookup_field (assign_field fs k v) k = v.
Proof.
  induction fs as [|[k' x] fs IH]; cbn; [by rewrite decide_True|].
  case_decide; cbn; [by rewrite decide_True|by rewrite decide_False].
Qed.

Lemma lookup_assign_ne fs k k' v :
  k ≠ k' → lookup_field (assign_field fs k v) k' = lookup_field fs k'.
Proof.
  intros Hk. induction fs as [|[k0 x] fs IH]; cbn.
  - by rewrite decide_False.
  - case_decide as H0; cbn.
    + subst. by rewrite !decide_False.
    + case_decide; [done|exact IH].
Qed.

(** With the defaults of version 4, only the step from 3 to 4 can run: a
    document of version 1 or 2 is handed to [this.set] as it was read. *)
Lemma upgrade_below_3 sys fields v :
  lookup_field fields "version" = JNum v → (v = 1 ∨ v = 2)%Z →
  _upgrade (_loadInitital sys) (JObj fields)
  = SetPayload (_loadInitital sys) (JObj fields).
Proof.
  intros Hv [-> | ->]; unfold _upgrade; cbn [jget]; rewrite Hv; reflexivity.
Qed.

(** A document of version 3 gets version 4. *)
Lemma upgrade_from_3 sys fields :
  lookup_field fields "version" = JNum 3 →
  ∃ s, _upgrade (_loadInitital sys) (JObj fields)
       = SetPayload (_loadInitital sys) s ∧
       version_of s = JNum 4.
Proof.
  intros Hv. unfold _upgrade. cbn [jget]. rewrite Hv.
  eexists. split; [reflexivity|].
  unfold version_of. cbn [jget default from_option Datatypes.id].
  rewrite lookup_assign_ne by done. apply lookup_assign_eq.
Qed.

End UpgradeFacts.

(** C2, on the code.  With the defaults of version 4, [_upgrade] calls
    [this.set] with the document of version 1 unchanged: its version is
    still 1 and its preferences still have the flat sizes, not the shape
    per body part. *)
Theorem upgrade_leaves_version_1 (sys : SettingsService.System) :
  SettingsService._upgrade (SettingsService._loadInitital sys)
                           SettingsService.settings_v1
  = SettingsService.SetPayload (SettingsService._loadInitital sys)
                               SettingsService.settings_v1 ∧
  SettingsService.version_of SettingsService.settings_v1
  = SettingsService.JNum 1 ∧
  SettingsService.restructured SettingsService.settings_v1 = false.
Proof. split_and!; reflexivity. Qed.

(** ** C1: how deep the snapshot of the preferences goes *)

Lemma get_own_set_own_eq o k v : Js.get_own (Js.set_own o k v) k = v.
Proof.
  induction o as [|[k' x] o IH]; cbn; [by rewrite decide_True|].
  case_decide; cbn; [by rewrite decide_True|by rewrite decide_False].
Qed.

Lemma get_own_set_own_ne o k k' v :
  k ≠ k' → Js.get_own (Js.set_own o k v) k' = Js.get_own o k'.
Proof.
  intros Hk. induction o as [|[k0 x] o IH]; cbn.
  - by rewrite decide_False.
  - case_decide as H0; cbn.
    + subst. by rewrite !decide_False.
    + case_decide; [done|exact IH].
Qed.

(** The clone shares the nested objects: a write to
    [settings.preferences.k1.k2] after the construction of a photo is what
    the photo reads in [this.preferences.k1.k2]. *)
Lemma nested_write_reaches_photo f w w1 l p l0 o lb k1 k2 v :
  settings_preferences (settings w) = Js.VRef l0 →
  heap w !! l0 = Some o →
  Js.get_own o k1 = Js.VRef lb → lb < length (heap w) →
  Photo_new f w = (w1, inr l) → store w1 !! l = Some p →
  ∃ h',
    Js.set_path (heap w1) (settings_preferences (settings w1)) [k1; k2] v
      = Some h' ∧
    Js.get_path h' (preferences p) [k1; k2] = Some v.
Proof.
  intros Hsp Ho Hk1 Hlb Hnew Hp. unfold Photo_new, Js.clone in Hnew.
  rewrite Hsp, Ho in Hnew. cbn [Js.alloc] in Hnew.
  destruct (Photo__validate f); [discriminate|]. injection Hnew as <- <-.
  cbn [store with_store with_heap] in Hp.
  rewrite lookup_app_r, Nat.sub_diag in Hp by lia. injection Hp as <-.
  cbn [heap settings with_store with_heap preferences]. rewrite Hsp.
  destruct (lookup_lt_is_Some_2 (heap w) lb Hlb) as [ob Hob].
  assert (Hl0 : l0 < length (heap w)) by (by eapply lookup_lt_Some).
  cbn [Js.set_path Js.get Js.set Js.get_path].
  rewrite (lookup_app_l_Some _ _ _ _ Ho). cbn [mbind option_bind]. rewrite Hk1.
  cbn [Js.set]. rewrite (lookup_app_l_Some _ _ _ _ Hob). cbn [mbind option_bind].
  eexists. split; [reflexivity|].
  rewrite list_lookup_insert_ne by lia.
  rewrite lookup_app_r, Nat.sub_diag by lia. cbn [lookup list_lookup mbind option_bind].
  rewrite Hk1. cbn [Js.get].
  rewrite list_lookup_insert_eq by (rewrite length_app; lia).
  cbn [mbind option_bind]. by rewrite get_own_set_own_eq.
Qed.

(** What the clone does keep apart: a write to a property of
    [settings.preferences] itself does not show in the photo. *)
Lemma top_write_misses_photo f w w1 l p l0 o k v h' :
  settings_preferences (settings w) = Js.VRef l0 →
  heap w !! l0 = Some o →
  Photo_new f w = (w1, inr l) → store w1 !! l = Some p →
  Js.set (heap w1) (settings_preferences (settings w1)) k v = Some h' →
  ∀ k', Js.get h' (preferences p) k' = Js.get (heap w1) (preferences p) k'.
Proof.
  intros Hsp Ho Hnew Hp Hset k'. unfold Photo_new, Js.clone in Hnew.
  rewrite Hsp, Ho in Hnew. cbn [Js.alloc] in Hnew.
  destruct (Photo__validate f); [discriminate|]. injection Hnew as <- <-.
  cbn [store with_store with_heap] in Hp.
  rewrite lookup_app_r, Nat.sub_diag in Hp by lia. injection Hp as <-.
  cbn [heap settings with_store with_heap preferences] in *.
  rewrite Hsp in Hset. cbn [Js.set] in Hset.
  assert (Hl0 : l0 < length (heap w)) by (by eapply lookup_lt_Some).
  rewrite (lookup_app_l_Some _ _ _ _ Ho) in Hset. injection Hset as <-.
  cbn [Js.get]. by rewrite list_lookup_insert_ne by lia.
Qed.

(** C1, on the code.  A photo is made while the configured execution count
    is 1; then [settings.preferences.body.executions] is set to 5.  The
    photo now reads 5 in its own preferences, and its [start()] makes five
    runs. *)
Theorem snapshot_follows_nested_settings :
  photo_executions photo_made 0 = Some (Js.VNum 1) ∧
  photo_executions settings_changed 0 = Some (Js.VNum 5) ∧
  (λ p, run_id <$> runs p) <$> store (Photo_start 0 settings_changed).1 !! 0
  = Some [1; 2; 3; 4; 5]%Z.
Proof. split_and!; reflexivity. Qed.
